(** * KVStorage: an ordered key-value store with expiring records

    A shallow embedding of [include/kv_storage.h].  The class keeps two
    ordered containers, [records_] (a [std::map] from key to record) and
    [expiry_queue_] (a [std::set] of (expiry, key) entries), and reads the
    time from a clock object.  The containers are modelled as strictly
    sorted lists, which is the order their iterators visit; an iterator is
    the suffix of the list that starts at the element it points to.  The
    mutex is not modelled: every method holds it for its whole body, so a
    method is one atomic step on the pair of containers. *)

From Stdlib Require Import ZArith NArith List String Ascii Bool Lia.
Import ListNotations.

Set Implicit Arguments.
Local Open Scope string_scope.
Local Open Scope list_scope.
Local Open Scope Z_scope.

(** ** Ordered containers *)

Section Containers.
Variable K : Type.
(** The three-way form of the container's [Compare]. *)
Variable cmp : K -> K -> comparison.

Definition less (a b : K) : bool :=
  match cmp a b with Lt => true | _ => false end.

(** Keys strictly ascending: every key is below all the keys after it. *)
Fixpoint ascending (ks : list K) : bool :=
  match ks with
  | [] => true
  | k :: ks' => forallb (less k) ks' && ascending ks'
  end.

Section Map.
Variable V : Type.

(** [std::map::find]: the mapped value, [None] for [end()]. *)
Fixpoint map_find (k : K) (m : list (K * V)) : option V :=
  match m with
  | [] => None
  | (k', v') :: m' =>
      match cmp k k' with
      | Lt => None
      | Eq => Some v'
      | Gt => map_find k m'
      end
  end.

(** [m[k] = v]: overwrite the mapped value, or insert a new node. *)
Fixpoint map_assign (k : K) (v : V) (m : list (K * V)) : list (K * V) :=
  match m with
  | [] => [(k, v)]
  | (k', v') :: m' =>
      match cmp k k' with
      | Lt => (k, v) :: m
      | Eq => (k, v) :: m'
      | Gt => (k', v') :: map_assign k v m'
      end
  end.

(** [std::map::erase] of a key (of the node an iterator from [find]
    points to). *)
Fixpoint map_erase (k : K) (m : list (K * V)) : list (K * V) :=
  match m with
  | [] => []
  | (k', v') :: m' =>
      match cmp k k' with
      | Lt => m
      | Eq => m'
      | Gt => (k', v') :: map_erase k m'
      end
  end.

(** [std::map::lower_bound]: the iterator at the first node whose key
    is not less than [k]. *)
Fixpoint map_lower_bound (k : K) (m : list (K * V)) : list (K * V) :=
  match m with
  | [] => []
  | (k', _) :: m' => if less k' k then map_lower_bound k m' else m
  end.

(** Reading [m[k]]: a missing key is first inserted with a
    value-initialised mapped value. *)
Definition map_subscript (dflt : V) (k : K) (m : list (K * V))
  : V * list (K * V) :=
  match map_find k m with
  | Some v => (v, m)
  | None => (dflt, map_assign k dflt m)
  end.

Definition map_ok (m : list (K * V)) : bool := ascending (map fst m).
End Map.

(** [std::set::insert]: an equivalent element already present is kept. *)
Fixpoint set_insert (x : K) (s : list K) : list K :=
  match s with
  | [] => [x]
  | y :: s' =>
      match cmp x y with
      | Lt => x :: s
      | Eq => s
      | Gt => y :: set_insert x s'
      end
  end.

(** [std::set::erase] of a value. *)
Fixpoint set_erase (x : K) (s : list K) : list K :=
  match s with
  | [] => []
  | y :: s' =>
      match cmp x y with
      | Lt => s
      | Eq => s'
      | Gt => y :: set_erase x s'
      end
  end.

(** What a [Compare] must satisfy for the containers to work: it is a
    strict total order whose equivalence is equality. *)
Record CmpLaws : Prop := {
  cmp_eq : forall a b, cmp a b = Eq <-> a = b;
  cmp_opp : forall a b, cmp b a = CompOpp (cmp a b);
  cmp_trans : forall a b c, cmp a b = Lt -> cmp b c = Lt -> cmp a c = Lt
}.
End Containers.

(** ** Data model *)

(** [Clock::time_point]: a count of clock ticks since the epoch, held in
    a signed 64-bit integer. *)
Definition time_point : Type := Z.

(** The tick counts a [time_point] can hold. *)
Definition representable (t : Z) : Prop := - 2 ^ 63 <= t < 2 ^ 63.

(** What a sum of tick counts becomes in the 64-bit register: the source
    adds without a check, and the compiled code wraps around. *)
Definition wrap64 (z : Z) : Z := (z + 2 ^ 63) mod 2 ^ 64 - 2 ^ 63.

(** [KVStorage::Record]. *)
Record Record_ : Type := {
  value : string;
  expiry : option time_point
}.

(** [KVStorage::ExpiryEntry]. *)
Record ExpiryEntry : Type := {
  entry_expiry : time_point;
  entry_key : string
}.

(** [ExpiryEntry::operator<] compares [std::tie(expiry, key)]: by instant
    first, by key among equal instants.  [std::string] compares bytes as
    unsigned values, a proper prefix first, which is [String.compare]. *)
Definition entry_compare (a b : ExpiryEntry) : comparison :=
  match Z.compare (entry_expiry a) (entry_expiry b) with
  | Eq => String.compare (entry_key a) (entry_key b)
  | c => c
  end.

(** The data members; [clock_] is read through the monad below. *)
Record KVStorage : Type := {
  records_ : list (string * Record_);
  expiry_queue_ : list ExpiryEntry
}.

(** A default-constructed pair of containers. *)
Definition empty_storage : KVStorage :=
  {| records_ := []; expiry_queue_ := [] |}.

(** The representation invariant of the two containers. *)
Definition storage_ok (s : KVStorage) : bool :=
  map_ok String.compare (records_ s) && ascending entry_compare (expiry_queue_ s).

(** ** Methods run in a small monad

    A method reads the instant [clock_.now()] reports and updates the data
    members.  The clock reports one instant for the length of a call. *)

Definition M (A : Type) : Type := time_point -> KVStorage -> A * KVStorage.

Definition ret {A} (a : A) : M A := fun _ s => (a, s).

Definition bind {A B} (c : M A) (f : A -> M B) : M B :=
  fun now s => let (a, s') := c now s in f a now s'.

Notation "x <- c ;; k" := (bind c (fun x => k))
  (at level 61, c at next level, right associativity).
Notation "c ;; k" := (bind c (fun _ => k))
  (at level 61, right associativity).

Definition clock_now : M time_point := fun now s => (now, s).
Definition read_records : M (list (string * Record_)) :=
  fun _ s => (records_ s, s).
Definition read_queue : M (list ExpiryEntry) :=
  fun _ s => (expiry_queue_ s, s).
Definition write_records (m : list (string * Record_)) : M unit :=
  fun _ s => (tt, {| records_ := m; expiry_queue_ := expiry_queue_ s |}).
Definition write_queue (q : list ExpiryEntry) : M unit :=
  fun _ s => (tt, {| records_ := records_ s; expiry_queue_ := q |}).

Definition result {A} (c : M A) (now : time_point) (s : KVStorage) : A :=
  fst (c now s).
Definition state_after {A} (c : M A) (now : time_point) (s : KVStorage)
  : KVStorage := snd (c now s).

(** ** The methods of [KVStorage] *)

Section Engine.
(** Ticks of [Clock::duration] in one second (the clock is a template
    parameter; [std::chrono::system_clock] of libstdc++ counts
    nanoseconds). *)
Variable ticks_per_second : Z.

(** What is read where the heap buffer of a [std::string] was, after the
    string has been destroyed and its node freed: the state of the freed
    memory, which is no part of the engine. *)
Variable freed_bytes : string -> string.

(** Reading a [std::string] through an iterator to an erased node.  A
    string of at most 15 bytes lives inside the node (libstdc++ keeps it
    in the string object itself) and still reads as it was; a longer one
    has had its heap buffer released. *)
Definition read_erased (k : string) : string :=
  if (String.length k <=? 15)%nat then k else freed_bytes k.

(** [std::chrono::seconds(ttl)] converted to the clock's duration. *)
Definition seconds (ttl : N) : Z := ticks_per_second * Z.of_N ttl.

(** [set]: [ttl] is a [uint32_t]; the clock is read only for a nonzero
    ttl, and the expiry is the 64-bit sum of the reading and the ttl.  The
    record is assigned and the new pair inserted; nothing is erased from
    the queue. *)
Definition set (key value : string) (ttl : N) : M unit :=
  expiry <- (if (ttl =? 0)%N then ret None
             else now <- clock_now ;; ret (Some (wrap64 (now + seconds ttl)))) ;;
  recs <- read_records ;;
  write_records
    (map_assign String.compare key {| value := value; expiry := expiry |} recs) ;;
  match expiry with
  | Some e =>
      q <- read_queue ;;
      write_queue
        (set_insert entry_compare {| entry_expiry := e; entry_key := key |} q)
  | None => ret tt
  end.

(** [remove]: erases the pair of the record found, then the record. *)
Definition remove (key : string) : M bool :=
  recs <- read_records ;;
  match map_find String.compare key recs with
  | None => ret false
  | Some r =>
      match expiry r with
      | Some e =>
          q <- read_queue ;;
          write_queue
            (set_erase entry_compare {| entry_expiry := e; entry_key := key |} q)
      | None => ret tt
      end ;;
      recs' <- read_records ;;
      write_records (map_erase String.compare key recs') ;;
      ret true
  end.

(** [get]: a record whose expiry is at or before [now()] is not
    returned. *)
Definition get (key : string) : M (option string) :=
  recs <- read_records ;;
  match map_find String.compare key recs with
  | None => ret None
  | Some r =>
      match expiry r with
      | Some e =>
          now <- clock_now ;;
          if e <=? now then ret None else ret (Some (value r))
      | None => ret (Some (value r))
      end
  end.

(** The [while] loop of [getManySorted]: [it] is the iterator, [result]
    the vector built so far. *)
Fixpoint scan (it : list (string * Record_)) (count : N)
    (result : list (string * string)) : M (list (string * string)) :=
  match it with
  | [] => ret result
  | (k, r) :: it' =>
      if (N.of_nat (List.length result) <? count)%N then
        keep <- match expiry r with
                | None => ret true
                | Some e => now <- clock_now ;; ret (now <? e)
                end ;;
        scan it' count (if keep then result ++ [(k, value r)] else result)
      else ret result
  end.

(** [getManySorted]: starts at [lower_bound(key)], steps over a node whose
    key equals [key], then runs the loop. *)
Definition getManySorted (key : string) (count : N)
  : M (list (string * string)) :=
  recs <- read_records ;;
  let it := map_lower_bound String.compare key recs in
  let it := match it with
            | (k, _) :: it' => if String.eqb k key then it' else it
            | [] => it
            end in
  scan it count [].

(** [removeOneExpiredEntry]: looks at [begin(expiry_queue_)] only.
    [records_[it->key]] inserts an empty record when the key is missing.
    The value is copied before the erase; the key of the reply is read
    through [it] after [erase(it)]. *)
Definition removeOneExpiredEntry : M (option (string * string)) :=
  q <- read_queue ;;
  match q with
  | [] => ret None
  | it :: q' =>
      now <- clock_now ;;
      if entry_expiry it <=? now then
        recs <- read_records ;;
        let (r, recs') :=
          map_subscript String.compare {| value := ""; expiry := None |}
            (entry_key it) recs in
        write_records (map_erase String.compare (entry_key it) recs') ;;
        write_queue q' ;;
        ret (Some (read_erased (entry_key it), value r))
      else ret None
  end.

(** The loop of the constructor. *)
Fixpoint set_each (entries : list (string * string * N)) : M unit :=
  match entries with
  | [] => ret tt
  | (key, value, ttl) :: rest => set key value ttl ;; set_each rest
  end.

(** The constructor from a span of entries. *)
Definition construct (entries : list (string * string * N))
    (now : time_point) : KVStorage :=
  state_after (set_each entries) now empty_storage.

(** ** Calls and reachable states *)

Inductive Call : Type :=
| Set_ (key value : string) (ttl : N)
| Get (key : string)
| Remove (key : string)
| GetManySorted (key : string) (count : N)
| RemoveOneExpiredEntry.

Inductive Reply : Type :=
| Done
| Value (v : option string)
| Removed (b : bool)
| Entries (l : list (string * string))
| Expired (e : option (string * string)).

Definition call (c : Call) : M Reply :=
  match c with
  | Set_ key value ttl => set key value ttl ;; ret Done
  | Get key => v <- get key ;; ret (Value v)
  | Remove key => b <- remove key ;; ret (Removed b)
  | GetManySorted key count => l <- getManySorted key count ;; ret (Entries l)
  | RemoveOneExpiredEntry => e <- removeOneExpiredEntry ;; ret (Expired e)
  end.

(** A run: each call with the instant the clock reports during it. *)
Fixpoint run (calls : list (time_point * Call)) (s : KVStorage) : KVStorage :=
  match calls with
  | [] => s
  | (now, c) :: rest => run rest (state_after (call c) now s)
  end.

(** The states an engine that starts empty can be in between calls. *)
Inductive reachable : KVStorage -> Prop :=
| reachable_empty : reachable empty_storage
| reachable_call s now c :
    reachable s -> reachable (state_after (call c) now s).

(** ** Notions of the specification *)

(** The record stored under a key. *)
Definition stored (s : KVStorage) (k : string) (r : Record_) : Prop :=
  In (k, r) (records_ s).

Definition absent (s : KVStorage) (k : string) : Prop :=
  forall r, ~ stored s k r.

Definition indexed (s : KVStorage) (e : time_point) (k : string) : Prop :=
  In {| entry_expiry := e; entry_key := k |} (expiry_queue_ s).

(** Invariant I1: the pairs of the expiry index are the (expiry, key)
    of the records that have an expiry. *)
Definition I1 (s : KVStorage) : Prop :=
  forall k e,
    (exists v, stored s k {| value := v; expiry := Some e |}) <-> indexed s e k.

(** One half of I1: every record with an expiry has its pair in the
    index. *)
Definition expiries_indexed (s : KVStorage) : Prop :=
  forall k v e, stored s k {| value := v; expiry := Some e |} -> indexed s e k.

(** A call that overwrites a record which has an expiry. *)
Definition overwrites_expiring (c : Call) (s : KVStorage) : Prop :=
  match c with
  | Set_ key _ _ =>
      exists v e, stored s key {| value := v; expiry := Some e |}
  | _ => False
  end.

(** No stored record has reached its expiry at [now]. *)
Definition none_expired (now : time_point) (s : KVStorage) : Prop :=
  forall k v e, stored s k {| value := v; expiry := Some e |} -> now < e.

(** A record is live at an instant when it has no expiry or the expiry
    is still ahead. *)
Definition live (now : time_point) (r : Record_) : bool :=
  match expiry r with
  | None => true
  | Some e => now <? e
  end.

(** The range query in the words of the specification: of the records
    with a key above the bound, in key order, the live ones, cut to
    [count] entries. *)
Definition live_above (bound : string) (now : time_point)
    (m : list (string * Record_)) : list (string * string) :=
  map (fun e => (fst e, value (snd e)))
    (filter (fun e => less String.compare bound (fst e) && live now (snd e)) m).

Definition range_spec (bound : string) (count : N) (now : time_point)
    (s : KVStorage) : list (string * string) :=
  firstn (N.to_nat count) (live_above bound now (records_ s)).

(** The bulk construction in the words of the specification: an empty
    engine, then one [set] per triple, in order. *)
Definition set_triple (now : time_point) (s : KVStorage)
    (t : string * string * N) : KVStorage :=
  let '(key, value, ttl) := t in state_after (set key value ttl) now s.

Definition bulk_by_sets (entries : list (string * string * N))
    (now : time_point) : KVStorage :=
  fold_left (set_triple now) entries empty_storage.

(** The record the last triple for a key asks for. *)
Fixpoint last_for (k : string) (now : time_point)
    (entries : list (string * string * N)) (acc : option Record_)
  : option Record_ :=
  match entries with
  | [] => acc
  | (key, value, ttl) :: rest =>
      last_for k now rest
        (if String.eqb key k
         then Some {| value := value;
                      expiry := if (ttl =? 0)%N then None
                                else Some (now + seconds ttl) |}
         else acc)
  end.
End Engine.

(** A run none of whose calls overwrites a record that has an expiry. *)
Fixpoint never_overwrites (ticks_per_second : Z)
    (freed_bytes : string -> string)
    (calls : list (time_point * Call)) (s : KVStorage) : Prop :=
  match calls with
  | [] => True
  | (now, c) :: rest =>
      ~ overwrites_expiring c s /\
      never_overwrites ticks_per_second freed_bytes rest
        (state_after (call ticks_per_second freed_bytes c) now s)
  end.

(** ** Sample runs

    The clock of the tests starts at the epoch and is moved by hand; it
    borrows the time point of [std::chrono::system_clock], which counts
    nanoseconds in libstdc++. *)

Definition system_clock_ticks : Z := 1000000000.

(** Freed memory that still holds the bytes it held. *)
Definition freed_intact : string -> string := fun k => k.

(** Freed memory that has been cleared. *)
Definition freed_cleared : string -> string := fun _ => "".

(** The instant [n] seconds after the epoch. *)
Definition at_second (n : Z) : time_point := n * system_clock_ticks.

(** Three entries, two of them with a ttl (the store of the test
    GetManySortedWithExpired). *)
Definition sample_store : KVStorage :=
  run system_clock_ticks freed_intact
    [(0, Set_ "a" "val1" 5); (0, Set_ "b" "val2" 0); (0, Set_ "c" "val3" 10)]
    empty_storage.

(** A key set with a ttl and set again without one. *)
Definition overwritten_store : KVStorage :=
  run system_clock_ticks freed_intact
    [(0, Set_ "k" "v" 5); (0, Set_ "k" "w" 0)] empty_storage.

(** A key set with a ttl and set again with a longer one. *)
Definition extended_store : KVStorage :=
  run system_clock_ticks freed_intact
    [(0, Set_ "k" "v" 5); (0, Set_ "k" "v" 10)] empty_storage.

(** A key of 16 bytes, set with a ttl of one second. *)
Definition long_key : string := "0123456789abcdef".

Definition long_key_store : KVStorage :=
  run system_clock_ticks freed_intact
    [(0, Set_ long_key "v" 1)] empty_storage.

(** * Properties *)

(** ** The two orders *)

Lemma ascii_compare_refl (a : ascii) : Ascii.compare a a = Eq.
Proof. unfold Ascii.compare. apply N.compare_refl. Qed.

Lemma ascii_compare_trans (a b c : ascii) :
  Ascii.compare a b = Lt -> Ascii.compare b c = Lt -> Ascii.compare a c = Lt.
Proof.
  unfold Ascii.compare. rewrite !N.compare_lt_iff. apply N.lt_trans.
Qed.

Lemma string_compare_refl (a : string) : String.compare a a = Eq.
Proof.
  induction a as [|c a IH]; simpl; [reflexivity|].
  now rewrite ascii_compare_refl.
Qed.

Lemma string_compare_trans (a b c : string) :
  String.compare a b = Lt -> String.compare b c = Lt -> String.compare a c = Lt.
Proof.
  revert b c.
  induction a as [|x a IH]; intros [|y b] [|z c]; simpl; try easy.
  destruct (Ascii.compare x y) eqn:Exy; try easy;
    destruct (Ascii.compare y z) eqn:Eyz; try easy; intros Hab Hbc.
  - apply Ascii.compare_eq_iff in Exy, Eyz. subst.
    rewrite ascii_compare_refl. eauto.
  - apply Ascii.compare_eq_iff in Exy. subst. now rewrite Eyz.
  - apply Ascii.compare_eq_iff in Eyz. subst. now rewrite Exy.
  - now rewrite (ascii_compare_trans _ _ _ Exy Eyz).
Qed.

Lemma string_cmp_laws : CmpLaws String.compare.
Proof.
  split.
  - intros a b. split.
    + apply String.compare_eq_iff.
    + intros ->. apply string_compare_refl.
  - intros a b. apply String.compare_antisym.
  - apply string_compare_trans.
Qed.

Lemma entry_cmp_laws : CmpLaws entry_compare.
Proof.
  split.
  - intros [ea ka] [eb kb]. unfold entry_compare. simpl. split.
    + destruct (Z.compare_spec ea eb) as [E|L|G]; try discriminate.
      intros Hk. apply String.compare_eq_iff in Hk. now subst.
    + intros E. injection E as -> ->.
      rewrite Z.compare_refl. apply string_compare_refl.
  - intros [ea ka] [eb kb]. unfold entry_compare. simpl.
    rewrite (Z.compare_antisym ea eb).
    destruct (ea ?= eb); simpl; auto using String.compare_antisym.
  - intros [ea ka] [eb kb] [ec kc]. unfold entry_compare. simpl.
    destruct (Z.compare_spec ea eb) as [E1|L1|G1];
      destruct (Z.compare_spec eb ec) as [E2|L2|G2];
      try discriminate; subst; intros Hab Hbc.
    + rewrite Z.compare_refl. eauto using string_compare_trans.
    + now apply Z.compare_lt_iff in L2 as ->.
    + now apply Z.compare_lt_iff in L1 as ->.
    + assert (ea < ec) as L by lia. now apply Z.compare_lt_iff in L as ->.
Qed.

(** ** Lists *)

Lemma In_firstn (A : Type) (x : A) (n : nat) (l : list A) :
  In x (firstn n l) -> In x l.
Proof.
  revert n. induction l as [|a l IH]; intros [|n]; simpl; try easy.
  intros [->|H]; eauto.
Qed.

Lemma filter_all (A : Type) (p : A -> bool) (l : list A) :
  (forall x, In x l -> p x = true) -> filter p l = l.
Proof.
  induction l as [|a l IH]; simpl; [easy|].
  intros H. rewrite (H a) by auto. f_equal. auto.
Qed.

Lemma filter_filter (A : Type) (p q : A -> bool) (l : list A) :
  filter q (filter p l) = filter (fun x => p x && q x) l.
Proof.
  induction l as [|a l IH]; simpl; [easy|].
  destruct (p a); simpl; [destruct (q a)|]; now rewrite IH.
Qed.

(** ** The ordered containers *)

Section ContainerFacts.
Variable K : Type.
Variable cmp : K -> K -> comparison.
Hypothesis laws : CmpLaws cmp.

Lemma cmp_refl (a : K) : cmp a a = Eq.
Proof. now apply (cmp_eq laws). Qed.

Lemma cmp_gt_lt (a b : K) : cmp a b = Gt -> cmp b a = Lt.
Proof. intros H. now rewrite (cmp_opp laws a b), H. Qed.

Lemma cmp_lt_gt (a b : K) : cmp a b = Lt -> cmp b a = Gt.
Proof. intros H. now rewrite (cmp_opp laws a b), H. Qed.

Lemma less_lt (a b : K) : less cmp a b = true <-> cmp a b = Lt.
Proof. unfold less. destruct (cmp a b); easy. Qed.

Lemma less_irrefl (a : K) : less cmp a a = false.
Proof. unfold less. now rewrite cmp_refl. Qed.

Lemma less_trans (a b c : K) :
  less cmp a b = true -> less cmp b c = true -> less cmp a c = true.
Proof. rewrite !less_lt. apply (cmp_trans laws). Qed.

Lemma less_asym (a b : K) : less cmp a b = true -> less cmp b a = false.
Proof.
  rewrite less_lt. intros H. unfold less. now rewrite (cmp_lt_gt H).
Qed.

Lemma less_all_trans (a b : K) (l : list K) :
  less cmp a b = true -> forallb (less cmp b) l = true ->
  forallb (less cmp a) l = true.
Proof.
  intros Hab. rewrite !forallb_forall. eauto using less_trans.
Qed.

Lemma ascending_cons (k : K) (ks : list K) :
  ascending cmp (k :: ks) = true <->
  (forall x, In x ks -> less cmp k x = true) /\ ascending cmp ks = true.
Proof.
  simpl. now rewrite andb_true_iff, forallb_forall.
Qed.

Lemma ascending_filter (p : K -> bool) (ks : list K) :
  ascending cmp ks = true -> ascending cmp (filter p ks) = true.
Proof.
  induction ks as [|k ks IH]; simpl; [easy|].
  intros H. change (ascending cmp (k :: ks) = true) in H.
  apply ascending_cons in H as [Hk Hks].
  destruct (p k); auto.
  apply ascending_cons. split; auto.
  intros x Hx. apply filter_In in Hx. now apply Hk.
Qed.

Lemma ascending_firstn (n : nat) (ks : list K) :
  ascending cmp ks = true -> ascending cmp (firstn n ks) = true.
Proof.
  revert n. induction ks as [|k ks IH]; intros [|n]; try easy.
  intros H. apply ascending_cons in H as [Hk Hks].
  rewrite firstn_cons. apply ascending_cons. split; auto.
  intros x Hx. apply Hk. revert Hx. apply In_firstn.
Qed.

Lemma ascending_NoDup (ks : list K) :
  ascending cmp ks = true -> NoDup ks.
Proof.
  induction ks as [|k ks IH]; [constructor|].
  intros H. apply ascending_cons in H as [Hk Hks].
  constructor; auto.
  intros Hin. apply Hk in Hin. now rewrite less_irrefl in Hin.
Qed.

(** *** Sets *)

Lemma In_set_insert (x y : K) (s : list K) :
  In x (set_insert cmp y s) <-> x = y \/ In x s.
Proof.
  induction s as [|z s IH]; simpl; [intuition|].
  destruct (cmp y z) eqn:E; simpl.
  - apply (cmp_eq laws) in E. subst. intuition.
  - intuition.
  - rewrite IH. intuition.
Qed.

Lemma In_set_erase (x y : K) (s : list K) :
  ascending cmp s = true ->
  (In x (set_erase cmp y s) <-> In x s /\ x <> y).
Proof.
  induction s as [|z s IH]; [simpl; intuition|].
  intros H. apply ascending_cons in H as [Hz Hs].
  cbn [set_erase]. destruct (cmp y z) eqn:E.
  - apply (cmp_eq laws) in E. subst z. simpl. split.
    + intros Hx. split; auto. intros ->.
      apply Hz in Hx. now rewrite less_irrefl in Hx.
    + intros [[->|Hx] Hne]; [easy|auto].
  - split; [|tauto]. intros Hx. split; auto. intros ->.
    destruct Hx as [->|Hx].
    + now rewrite cmp_refl in E.
    + apply Hz, less_lt in Hx.
      pose proof (cmp_trans laws _ _ _ E Hx) as C.
      now rewrite cmp_refl in C.
  - simpl. rewrite (IH Hs). split.
    + intros [->|[Hx Hne]]; [|tauto].
      split; auto. intros ->. now rewrite cmp_refl in E.
    + tauto.
Qed.

Lemma ascending_set_insert (y : K) (s : list K) :
  ascending cmp s = true -> ascending cmp (set_insert cmp y s) = true.
Proof.
  induction s as [|z s IH]; [easy|].
  intros H. pose proof H as Hzs. apply ascending_cons in H as [Hz Hs].
  cbn [set_insert]. destruct (cmp y z) eqn:E; auto.
  - apply ascending_cons. split; auto.
    intros x [->|Hx]; [now apply less_lt|].
    apply less_trans with z; [now apply less_lt|auto].
  - apply ascending_cons. split; auto.
    intros x Hx. apply In_set_insert in Hx as [->|Hx]; auto.
    now apply less_lt, cmp_gt_lt.
Qed.

Lemma ascending_set_erase (y : K) (s : list K) :
  ascending cmp s = true -> ascending cmp (set_erase cmp y s) = true.
Proof.
  induction s as [|z s IH]; [easy|].
  intros H. pose proof H as Hzs. apply ascending_cons in H as [Hz Hs].
  cbn [set_erase]. destruct (cmp y z) eqn:E; auto.
  apply ascending_cons. split; auto.
  intros x Hx. apply In_set_erase in Hx; auto. now apply Hz.
Qed.

(** *** Maps *)

Section MapFacts.
Variable V : Type.
Implicit Types (k : K) (v : V) (m : list (K * V)).

Lemma map_ok_cons k v m :
  map_ok cmp ((k, v) :: m) = true <->
  (forall x, In x (map fst m) -> less cmp k x = true) /\ map_ok cmp m = true.
Proof. apply ascending_cons. Qed.

Lemma map_find_assign_same k v m :
  map_find cmp k (map_assign cmp k v m) = Some v.
Proof.
  induction m as [|[k0 v0] m IH]; simpl.
  - now rewrite cmp_refl.
  - destruct (cmp k k0) eqn:E; simpl.
    + now rewrite cmp_refl.
    + now rewrite cmp_refl.
    + now rewrite E.
Qed.

Lemma map_find_assign_other k k' v m :
  k' <> k -> map_find cmp k' (map_assign cmp k v m) = map_find cmp k' m.
Proof.
  intros Hne.
  assert (cmp k' k <> Eq) as Hc by (now rewrite (cmp_eq laws)).
  induction m as [|[k0 v0] m IH]; simpl.
  - destruct (cmp k' k) eqn:E; easy.
  - destruct (cmp k k0) eqn:E; simpl.
    + apply (cmp_eq laws) in E. subst k0.
      destruct (cmp k' k); easy.
    + destruct (cmp k' k) eqn:E'; try easy.
      now rewrite (cmp_trans laws _ _ _ E' E).
    + destruct (cmp k' k0); auto.
Qed.

Lemma map_find_above k m :
  (forall x, In x (map fst m) -> less cmp k x = true) ->
  map_find cmp k m = None.
Proof.
  destruct m as [|[k0 v0] m]; simpl; [easy|].
  intros H. specialize (H k0 (or_introl eq_refl)).
  apply less_lt in H. now rewrite H.
Qed.

Lemma map_find_erase_same k m :
  map_ok cmp m = true -> map_find cmp k (map_erase cmp k m) = None.
Proof.
  induction m as [|[k0 v0] m IH]; [easy|].
  intros H. apply map_ok_cons in H as [Hk Hm].
  cbn [map_erase]. destruct (cmp k k0) eqn:E.
  - apply (cmp_eq laws) in E. subst k0. now apply map_find_above.
  - simpl. now rewrite E.
  - simpl. rewrite E. auto.
Qed.

Lemma map_find_erase_other k k' m :
  map_ok cmp m = true -> k' <> k ->
  map_find cmp k' (map_erase cmp k m) = map_find cmp k' m.
Proof.
  intros Hok Hne.
  assert (cmp k' k <> Eq) as Hc by (now rewrite (cmp_eq laws)).
  induction m as [|[k0 v0] m IH]; [easy|].
  apply map_ok_cons in Hok as [Hk Hm].
  cbn [map_erase]. destruct (cmp k k0) eqn:E.
  - apply (cmp_eq laws) in E. subst k0. simpl.
    destruct (cmp k' k) eqn:E'; try easy.
    apply map_find_above. intros x Hx.
    apply less_trans with k; auto. now apply less_lt.
  - reflexivity.
  - simpl. destruct (cmp k' k0); auto.
Qed.

Lemma In_keys_assign x k v m :
  In x (map fst (map_assign cmp k v m)) -> x = k \/ In x (map fst m).
Proof.
  induction m as [|[k0 v0] m IH]; simpl; [intuition|].
  destruct (cmp k k0) eqn:E; simpl; intuition.
Qed.

Lemma In_erase x k m : In x (map_erase cmp k m) -> In x m.
Proof.
  induction m as [|[k0 v0] m IH]; simpl; [easy|].
  destruct (cmp k k0); simpl; intuition.
Qed.

Lemma map_ok_assign k v m :
  map_ok cmp m = true -> map_ok cmp (map_assign cmp k v m) = true.
Proof.
  induction m as [|[k0 v0] m IH]; [easy|].
  intros H. pose proof H as Hall. apply map_ok_cons in H as [Hk Hm].
  cbn [map_assign]. destruct (cmp k k0) eqn:E.
  - apply (cmp_eq laws) in E. subst k0. now apply map_ok_cons.
  - apply map_ok_cons. split; auto.
    intros x [<-|Hx]; [now apply less_lt|].
    apply less_trans with k0; auto. now apply less_lt.
  - apply map_ok_cons. split; auto.
    intros x Hx. apply In_keys_assign in Hx as [->|Hx]; auto.
    now apply less_lt, cmp_gt_lt.
Qed.

Lemma map_ok_erase k m :
  map_ok cmp m = true -> map_ok cmp (map_erase cmp k m) = true.
Proof.
  induction m as [|[k0 v0] m IH]; [easy|].
  intros H. pose proof H as Hall. apply map_ok_cons in H as [Hk Hm].
  cbn [map_erase]. destruct (cmp k k0) eqn:E; auto.
  apply map_ok_cons. split; auto.
  intros x Hx. apply Hk.
  apply in_map_iff in Hx as [e [<- He]].
  apply in_map. revert He. apply In_erase.
Qed.

(** [find] agrees with membership in a well-formed map. *)
Lemma map_find_In k v m :
  map_ok cmp m = true -> (map_find cmp k m = Some v <-> In (k, v) m).
Proof.
  induction m as [|[k0 v0] m IH]; [simpl; intuition discriminate|].
  intros H. apply map_ok_cons in H as [Hk Hm]. simpl.
  destruct (cmp k k0) eqn:E.
  - apply (cmp_eq laws) in E. subst k0. split.
    + intros [= ->]. now left.
    + intros [[= ->]|Hin]; [easy|].
      apply (in_map fst), Hk in Hin. now rewrite less_irrefl in Hin.
  - split; [easy|]. intros [[= -> ->]|Hin].
    + now rewrite cmp_refl in E.
    + apply (in_map fst), Hk, less_lt in Hin. simpl in Hin.
      pose proof (cmp_trans laws _ _ _ E Hin) as C.
      now rewrite cmp_refl in C.
  - rewrite (IH Hm). split; [auto|]. intros [[= -> ->]|Hin]; [|easy].
    now rewrite cmp_refl in E.
Qed.

Lemma map_find_None k m :
  map_ok cmp m = true ->
  (map_find cmp k m = None <-> forall v, ~ In (k, v) m).
Proof.
  intros Hok. split.
  - intros Hn v Hin. apply (map_find_In k v m Hok) in Hin. congruence.
  - intros Hn. destruct (map_find cmp k m) as [v|] eqn:E; [|easy].
    apply (map_find_In k v m Hok) in E. now apply Hn in E.
Qed.

(** [lower_bound] drops exactly the nodes whose key is below the bound. *)
Lemma map_lower_bound_filter k m :
  map_ok cmp m = true ->
  map_lower_bound cmp k m = filter (fun e => negb (less cmp (fst e) k)) m.
Proof.
  induction m as [|[k0 v0] m IH]; [easy|].
  intros H. apply map_ok_cons in H as [Hk Hm]. simpl.
  destruct (less cmp k0 k) eqn:E; simpl; auto.
  f_equal. symmetry. apply filter_all. intros [x vx] Hx. simpl.
  apply (in_map fst), Hk in Hx. simpl in Hx.
  destruct (less cmp x k) eqn:E'; [|easy].
  now rewrite (less_trans _ _ _ Hx E') in E.
Qed.
Lemma In_assign_iff k k' v v' m :
  map_ok cmp m = true ->
  (In (k', v') (map_assign cmp k v m) <->
   (k' = k /\ v' = v) \/ (k' <> k /\ In (k', v') m)).
Proof.
  intros Hok.
  rewrite <- (map_find_In k' v' _ (map_ok_assign k v m Hok)).
  destruct (cmp k' k) eqn:E.
  - apply (cmp_eq laws) in E. subst k'. rewrite map_find_assign_same.
    split; [intros [= ->]; auto|]. intros [[_ ->]|[Hne _]]; easy.
  - assert (k' <> k) as Hne by (intros ->; now rewrite cmp_refl in E).
    rewrite (map_find_assign_other v m Hne), (map_find_In k' v' m Hok). tauto.
  - assert (k' <> k) as Hne by (intros ->; now rewrite cmp_refl in E).
    rewrite (map_find_assign_other v m Hne), (map_find_In k' v' m Hok). tauto.
Qed.

Lemma In_erase_iff k k' v' m :
  map_ok cmp m = true ->
  (In (k', v') (map_erase cmp k m) <-> k' <> k /\ In (k', v') m).
Proof.
  intros Hok.
  rewrite <- (map_find_In k' v' _ (map_ok_erase k m Hok)).
  destruct (cmp k' k) eqn:E.
  - apply (cmp_eq laws) in E. subst k'. rewrite (map_find_erase_same k m Hok).
    split; [easy|]. now intros [Hne _].
  - assert (k' <> k) as Hne by (intros ->; now rewrite cmp_refl in E).
    rewrite (map_find_erase_other m Hok Hne), (map_find_In k' v' m Hok). tauto.
  - assert (k' <> k) as Hne by (intros ->; now rewrite cmp_refl in E).
    rewrite (map_find_erase_other m Hok Hne), (map_find_In k' v' m Hok). tauto.
Qed.
End MapFacts.
End ContainerFacts.

(** ** The methods as equations on the state *)

Section EngineFacts.
Variable ticks_per_second : Z.
Variable freed_bytes : string -> string.

Lemma live_expiry (now e : time_point) : (now <? e) = negb (e <=? now).
Proof. apply Z.ltb_antisym. Qed.

Lemma read_erased_short (freed : string -> string) (k : string) :
  (String.length k <= 15)%nat -> read_erased freed k = k.
Proof.
  intros Hshort. unfold read_erased. now apply Nat.leb_le in Hshort as ->.
Qed.

Lemma wrap64_representable (z : Z) : representable z -> wrap64 z = z.
Proof.
  unfold representable, wrap64. intros H.
  rewrite Z.mod_small; lia.
Qed.

Lemma wrap64_range (z : Z) : representable (wrap64 z).
Proof.
  unfold representable, wrap64.
  pose proof (Z.mod_pos_bound (z + 2 ^ 63) (2 ^ 64)). lia.
Qed.

Lemma get_eq (key : string) (now : time_point) (s : KVStorage) :
  get key now s =
  (match map_find String.compare key (records_ s) with
   | Some r => if live now r then Some (value r) else None
   | None => None
   end, s).
Proof.
  unfold get, bind, read_records, clock_now, ret, live.
  destruct (map_find String.compare key (records_ s)) as [[v [e|]]|]; simpl; auto.
  rewrite live_expiry. now destruct (e <=? now).
Qed.

Lemma set_eq (key val : string) (ttl : N) (now : time_point) (s : KVStorage) :
  set ticks_per_second key val ttl now s =
  (tt,
   let expiry := if (ttl =? 0)%N then None else Some (wrap64 (now + seconds ticks_per_second ttl)) in
   {| records_ :=
        map_assign String.compare key {| value := val; expiry := expiry |} (records_ s);
      expiry_queue_ :=
        match expiry with
        | Some e =>
            set_insert entry_compare {| entry_expiry := e; entry_key := key |}
              (expiry_queue_ s)
        | None => expiry_queue_ s
        end |}).
Proof.
  unfold set, bind, read_records, read_queue, write_records,
    write_queue, clock_now, ret.
  now destruct (ttl =? 0)%N.
Qed.

Lemma remove_eq (key : string) (now : time_point) (s : KVStorage) :
  remove key now s =
  match map_find String.compare key (records_ s) with
  | None => (false, s)
  | Some r =>
      (true,
       {| records_ := map_erase String.compare key (records_ s);
          expiry_queue_ :=
            match expiry r with
            | Some e =>
                set_erase entry_compare
                  {| entry_expiry := e; entry_key := key |} (expiry_queue_ s)
            | None => expiry_queue_ s
            end |})
  end.
Proof.
  unfold remove, bind, read_records, read_queue, write_records, write_queue, ret.
  destruct (map_find String.compare key (records_ s)) as [[v [e|]]|]; simpl; auto;
    now destruct s.
Qed.

Lemma removeOneExpiredEntry_eq (now : time_point) (s : KVStorage) :
  removeOneExpiredEntry freed_bytes now s =
  match expiry_queue_ s with
  | [] => (None, s)
  | it :: q' =>
      if entry_expiry it <=? now then
        let (r, recs') :=
          map_subscript String.compare {| value := ""; expiry := None |}
            (entry_key it) (records_ s) in
        (Some (read_erased freed_bytes (entry_key it), value r),
         {| records_ := map_erase String.compare (entry_key it) recs';
            expiry_queue_ := q' |})
      else (None, s)
  end.
Proof.
  unfold removeOneExpiredEntry, bind, read_records, read_queue, write_records,
    write_queue, clock_now, ret.
  destruct (expiry_queue_ s) as [|it q']; auto.
  destruct (entry_expiry it <=? now); auto.
  now destruct (map_subscript _ _ _ _).
Qed.

(** The entries the loop of [getManySorted] appends while it runs over
    [it] without reaching [count]. *)
Lemma scan_eq (it : list (string * Record_)) (count : N)
    (acc : list (string * string)) (now : time_point) (s : KVStorage) :
  scan it count acc now s =
  (acc ++ firstn (N.to_nat count - List.length acc)
            (map (fun e => (fst e, value (snd e)))
               (filter (fun e => live now (snd e)) it)), s).
Proof.
  revert acc. induction it as [|[k r] it IH]; intros acc; simpl.
  - unfold ret. now rewrite firstn_nil, app_nil_r.
  - destruct (N.ltb_spec (N.of_nat (List.length acc)) count) as [Hlt|Hge].
    + assert (N.to_nat count - List.length acc =
              S (N.to_nat count - List.length (acc ++ [(k, value r)])))%nat
        as Hs by (rewrite length_app; simpl; lia).
      unfold bind, live. destruct (expiry r) as [e|]; simpl.
      * destruct (now <? e); rewrite IH; [|reflexivity].
        rewrite Hs. simpl. now rewrite <- app_assoc.
      * rewrite IH, Hs. simpl. now rewrite <- app_assoc.
    + unfold ret. replace (N.to_nat count - List.length acc)%nat with 0%nat by lia.
      now rewrite app_nil_r.
Qed.
(** *** The position the range scan starts from *)

Lemma map_ok_filter (p : string * Record_ -> bool) (m : list (string * Record_)) :
  map_ok String.compare m = true -> map_ok String.compare (filter p m) = true.
Proof.
  induction m as [|[k r] m IH]; [easy|].
  intros H. apply map_ok_cons in H as [Hk Hm]. simpl.
  destruct (p (k, r)); auto.
  apply map_ok_cons. split; auto.
  intros x Hx. apply Hk.
  apply in_map_iff in Hx as [e [<- He]].
  apply in_map. now apply filter_In in He.
Qed.

Lemma start_above (bound : string) (m : list (string * Record_)) :
  map_ok String.compare m = true ->
  match map_lower_bound String.compare bound m with
  | (k, r) :: it' =>
      if String.eqb k bound then it'
      else map_lower_bound String.compare bound m
  | [] => map_lower_bound String.compare bound m
  end = filter (fun e => less String.compare bound (fst e)) m.
Proof.
  induction m as [|[k r] m IH]; [easy|].
  intros H. apply map_ok_cons in H as [Hk Hm]. cbn [map_lower_bound filter fst].
  destruct (less String.compare k bound) eqn:E.
  - rewrite (less_asym string_cmp_laws _ _ E). auto.
  - assert (forall e, In e m -> less String.compare k (fst e) = true) as Hall
      by (intros e He; apply Hk; now apply in_map).
    destruct (String.eqb_spec k bound) as [->|Hne].
    + rewrite (less_irrefl string_cmp_laws). symmetry. now apply filter_all.
    + assert (less String.compare bound k = true) as L.
      { unfold less in *. rewrite (cmp_opp string_cmp_laws k bound).
        destruct (String.compare k bound) eqn:C; try easy.
        now apply (cmp_eq string_cmp_laws) in C. }
      rewrite L. f_equal. symmetry. apply filter_all.
      intros e He. apply less_trans with k; auto using string_cmp_laws.
Qed.

Lemma getManySorted_eq (bound : string) (count : N) (now : time_point)
    (s : KVStorage) :
  storage_ok s = true ->
  getManySorted bound count now s = (range_spec bound count now s, s).
Proof.
  intros Hok. apply andb_true_iff in Hok as [Hm _].
  unfold getManySorted, bind, read_records.
  rewrite (start_above bound _ Hm), scan_eq. simpl.
  unfold range_spec, live_above.
  now rewrite Nat.sub_0_r, filter_filter.
Qed.

(** ** Point lookups *)


(** ** Range queries *)

(** C6.  In a well-formed store [getManySorted] returns the first [count]
    live entries with a key above the bound, in key order: the keys
    ascend strictly, every returned pair is a live stored entry whose key
    is above (so different from) the bound, the result is shorter than
    [count] only when it holds every such entry, and a zero count gives
    the empty list. *)
Theorem getManySorted_spec (s : KVStorage) (bound : string) (count : N)
    (now : time_point) :
  storage_ok s = true ->
  let r := result (getManySorted bound count) now s in
  r = range_spec bound count now s /\
  ascending String.compare (map fst r) = true /\
  (forall k v, In (k, v) r ->
     String.compare bound k = Lt /\ k <> bound /\
     exists rec, stored s k rec /\ value rec = v /\ live now rec = true) /\
  (List.length r <= N.to_nat count)%nat /\
  ((List.length r < N.to_nat count)%nat ->
     r = live_above bound now (records_ s)) /\
  (count = 0%N -> r = []).
Proof.
  intros Hok r. subst r. unfold result. rewrite (getManySorted_eq _ _ _ _ Hok).
  apply andb_true_iff in Hok as [Hm _]. simpl.
  unfold range_spec. repeat split.
  - rewrite <- firstn_map. apply ascending_firstn.
    unfold live_above. rewrite map_map. simpl.
    now apply (map_ok_filter _ _ Hm).
  - apply In_firstn in H. unfold live_above in H.
    apply in_map_iff in H as [[k' rec] [[= <- <-] Hin]].
    apply filter_In in Hin as [_ Hp]. apply andb_true_iff in Hp as [Hp _].
    now apply less_lt in Hp.
  - intros ->. apply In_firstn in H. unfold live_above in H.
    apply in_map_iff in H as [[k' rec] [[= <- <-] Hin]].
    apply filter_In in Hin as [_ Hp]. apply andb_true_iff in Hp as [Hp _].
    simpl in Hp. now rewrite (less_irrefl string_cmp_laws) in Hp.
  - apply In_firstn in H. unfold live_above in H.
    apply in_map_iff in H as [[k' rec] [[= <- <-] Hin]].
    apply filter_In in Hin as [Hin Hp]. apply andb_true_iff in Hp as [_ Hp].
    exists rec. auto.
  - apply firstn_le_length.
  - rewrite length_firstn. intros Hlt. apply firstn_all2. lia.
  - now intros ->.
Qed.

(** ** Reads leave the state alone *)

(** C8.  [get] and [getManySorted] return the engine state they were run
    in, whatever the records and the clock's instant. *)
Theorem reads_keep_state (s : KVStorage) (key : string) (count : N)
    (now : time_point) :
  state_after (get key) now s = s /\
  state_after (getManySorted key count) now s = s.
Proof.
  unfold state_after. split.
  - now rewrite get_eq.
  - unfold getManySorted, bind, read_records. now rewrite scan_eq.
Qed.

(** ** Removal *)

(** C10.  In a well-formed store, a [remove] right after a [remove] of the
    same key returns false and leaves the state as the first one left
    it. *)
Theorem remove_twice (s : KVStorage) (k : string) (now now' : time_point) :
  storage_ok s = true ->
  let s1 := state_after (remove k) now s in
  remove k now' s1 = (false, s1).
Proof.
  intros Hok s1. subst s1. apply andb_true_iff in Hok as [Hm _].
  unfold state_after. rewrite (remove_eq k now s).
  destruct (map_find String.compare k (records_ s)) as [r|] eqn:E; simpl.
  - rewrite remove_eq. simpl.
    now rewrite (map_find_erase_same string_cmp_laws k _ Hm).
  - rewrite remove_eq. now rewrite E.
Qed.
(** ** Bulk construction *)

Lemma set_each_eq (entries : list (string * string * N)) (now : time_point)
    (s : KVStorage) :
  set_each ticks_per_second entries now s =
  (tt, fold_left (set_triple ticks_per_second now) entries s).
Proof.
  revert s. induction entries as [|[[k v] ttl] rest IH]; intros s; [easy|].
  cbn [set_each fold_left]. unfold bind at 1.
  unfold set_triple at 2, state_after.
  destruct (set ticks_per_second k v ttl now s) as [[] s'] eqn:E.
  apply IH.
Qed.

Lemma find_after_sets (k : string) (now : time_point)
    (entries : list (string * string * N)) (s : KVStorage) :
  (forall key v ttl, In (key, v, ttl) entries -> ttl <> 0%N ->
     representable (now + seconds ticks_per_second ttl)) ->
  map_find String.compare k
    (records_ (fold_left (set_triple ticks_per_second now) entries s)) =
  last_for ticks_per_second k now entries
    (map_find String.compare k (records_ s)).
Proof.
  revert s. induction entries as [|[[key v] ttl] rest IH]; intros s Hrep; [easy|].
  cbn [fold_left last_for]. rewrite IH
    by (intros key' v' ttl' Hin Hnz; apply (Hrep key' v' ttl'); [now right|exact Hnz]).
  f_equal. unfold set_triple, state_after. rewrite set_eq. simpl.
  assert ((if (ttl =? 0)%N then None
           else Some (wrap64 (now + seconds ticks_per_second ttl))) =
          (if (ttl =? 0)%N then None
           else Some (now + seconds ticks_per_second ttl))) as ->.
  { destruct (N.eqb_spec ttl 0); [easy|].
    rewrite wrap64_representable; [easy|]. apply (Hrep key v ttl); auto.
    now left. }
  destruct (String.eqb_spec key k) as [->|Hne].
  - apply (map_find_assign_same string_cmp_laws).
  - apply (map_find_assign_other string_cmp_laws). congruence.
Qed.

(** C7.  The engine the constructor builds from a list of triples is the
    engine an empty one becomes after one [set] per triple, in order.
    When the expiry of every triple with a ttl is an instant the 64-bit
    tick count can hold, the record it holds under a key is the one the
    last triple for that key asks for. *)
Theorem construct_spec (entries : list (string * string * N))
    (now : time_point) :
  construct ticks_per_second entries now =
    bulk_by_sets ticks_per_second entries now /\
  ((forall key v ttl, In (key, v, ttl) entries -> ttl <> 0%N ->
      representable (now + seconds ticks_per_second ttl)) ->
   forall k,
     map_find String.compare k
       (records_ (construct ticks_per_second entries now)) =
     last_for ticks_per_second k now entries None).
Proof.
  assert (construct ticks_per_second entries now =
          bulk_by_sets ticks_per_second entries now) as E.
  { unfold construct, state_after, bulk_by_sets. now rewrite set_each_eq. }
  split; [exact E|].
  intros Hrep k. rewrite E. unfold bulk_by_sets. now rewrite find_after_sets.
Qed.

(** ** What every reachable state satisfies *)

Lemma call_eq (c : Call) (now : time_point) (s : KVStorage) :
  state_after (call ticks_per_second freed_bytes c) now s =
  match c with
  | Set_ key val ttl => state_after (set ticks_per_second key val ttl) now s
  | Remove key => state_after (remove key) now s
  | RemoveOneExpiredEntry => state_after (removeOneExpiredEntry freed_bytes) now s
  | _ => s
  end.
Proof.
  unfold state_after. destruct c; simpl; unfold bind.
  - now destruct (set _ _ _ _ _ _).
  - now rewrite get_eq.
  - now destruct (remove _ _ _).
  - unfold getManySorted, bind, read_records. now rewrite scan_eq.
  - now destruct (removeOneExpiredEntry _ _ _).
Qed.

Lemma ascending_tail (x : ExpiryEntry) (q : list ExpiryEntry) :
  ascending entry_compare (x :: q) = true -> ascending entry_compare q = true.
Proof. intros H. now apply ascending_cons in H. Qed.

Lemma call_ok (c : Call) (now : time_point) (s : KVStorage) :
  storage_ok s = true ->
  storage_ok (state_after (call ticks_per_second freed_bytes c) now s) = true.
Proof.
  intros Hok. rewrite call_eq. pose proof Hok as Hboth.
  apply andb_true_iff in Hboth as [Hm Hq].
  unfold state_after, storage_ok. destruct c; auto.
  - rewrite set_eq. simpl. apply andb_true_iff. split.
    + now apply (map_ok_assign string_cmp_laws).
    + destruct (ttl =? 0)%N; auto.
      now apply (ascending_set_insert entry_cmp_laws).
  - rewrite remove_eq.
    destruct (map_find String.compare key (records_ s)) as [r|]; auto.
    simpl. apply andb_true_iff. split.
    + now apply map_ok_erase.
    + destruct (expiry r); auto.
      now apply (ascending_set_erase entry_cmp_laws).
  - rewrite removeOneExpiredEntry_eq.
    destruct (expiry_queue_ s) as [|it q] eqn:Eq; auto.
    destruct (entry_expiry it <=? now); auto.
    unfold map_subscript.
    destruct (map_find String.compare (entry_key it) (records_ s));
      simpl; apply andb_true_iff; split;
      eauto using ascending_tail, map_ok_erase, map_ok_assign, string_cmp_laws.
Qed.

Lemma reachable_ok (s : KVStorage) :
  reachable ticks_per_second freed_bytes s -> storage_ok s = true.
Proof. induction 1; auto using call_ok. Qed.

Lemma reachable_run (calls : list (time_point * Call)) (s : KVStorage) :
  reachable ticks_per_second freed_bytes s ->
  reachable ticks_per_second freed_bytes (run ticks_per_second freed_bytes calls s).
Proof.
  revert s. induction calls as [|[now c] rest IH]; intros s Hs; [easy|].
  simpl. apply IH. now constructor.
Qed.
(** *** Records with an expiry are always indexed *)

Lemma entry_neq_key (e e' : time_point) (k k' : string) :
  k' <> k ->
  {| entry_expiry := e'; entry_key := k' |} <>
  {| entry_expiry := e; entry_key := k |}.
Proof. congruence. Qed.

Lemma call_indexed (c : Call) (now : time_point) (s : KVStorage) :
  storage_ok s = true -> expiries_indexed s ->
  expiries_indexed (state_after (call ticks_per_second freed_bytes c) now s).
Proof.
  intros Hok Hidx. rewrite call_eq.
  apply andb_true_iff in Hok as [Hm Hq].
  unfold state_after. destruct c; auto.
  - rewrite set_eq. intros k v e. unfold stored, indexed. simpl.
    rewrite (In_assign_iff string_cmp_laws _ _ _ _ _ Hm).
    destruct (ttl =? 0)%N.
    + intros [[_ [=]]|[Hne Hin]]. now apply Hidx in Hin.
    + intros [[-> [= -> ->]]|[Hne Hin]]; apply (In_set_insert entry_cmp_laws);
        [now left|right; now apply Hidx in Hin].
  - rewrite remove_eq.
    destruct (map_find String.compare key (records_ s)) as [r|]; auto.
    intros k v e. unfold stored, indexed. simpl.
    rewrite (In_erase_iff string_cmp_laws _ _ _ _ Hm).
    intros [Hne Hin]. apply Hidx in Hin. destruct (expiry r); auto.
    apply (In_set_erase entry_cmp_laws); auto using entry_neq_key.
  - rewrite removeOneExpiredEntry_eq.
    destruct (expiry_queue_ s) as [|it q] eqn:Eq; auto.
    destruct (entry_expiry it <=? now); auto.
    assert (forall k v e,
              k <> entry_key it ->
              In (k, {| value := v; expiry := Some e |}) (records_ s) ->
              In {| entry_expiry := e; entry_key := k |} q) as Hrest.
    { intros k v e Hne Hin. apply Hidx in Hin. unfold indexed in Hin.
      rewrite Eq in Hin. destruct Hin as [->|Hin]; [now simpl in Hne|easy]. }
    unfold map_subscript.
    destruct (map_find String.compare (entry_key it) (records_ s));
      intros k v e; unfold stored, indexed; simpl.
    + rewrite (In_erase_iff string_cmp_laws _ _ _ _ Hm).
      intros [Hne Hin]. eauto.
    + rewrite (In_erase_iff string_cmp_laws _ _ _ _
                 (map_ok_assign string_cmp_laws _ _ _ Hm)).
      rewrite (In_assign_iff string_cmp_laws _ _ _ _ _ Hm).
      intros [Hne [[-> _]|[_ Hin]]]; [easy|eauto].
Qed.

Lemma reachable_indexed (s : KVStorage) :
  reachable ticks_per_second freed_bytes s -> expiries_indexed s.
Proof.
  induction 1 as [|s now c Hr IH].
  - intros k v e [].
  - apply call_indexed; auto. now apply reachable_ok.
Qed.

(** *** I1 survives every call but an overwrite of an expiring record *)

Lemma stored_unique (s : KVStorage) (k : string) (r r' : Record_) :
  storage_ok s = true -> stored s k r -> stored s k r' -> r = r'.
Proof.
  intros Hok H H'. apply andb_true_iff in Hok as [Hm _].
  apply (map_find_In string_cmp_laws _ _ _ Hm) in H, H'. congruence.
Qed.

(** From a well-formed state that satisfies I1, every call other than a
    [set] on a key whose record has an expiry leads to a state that
    satisfies I1. *)
Lemma call_keeps_I1 (c : Call) (now : time_point) (s : KVStorage) :
  storage_ok s = true -> I1 s -> ~ overwrites_expiring c s ->
  I1 (state_after (call ticks_per_second freed_bytes c) now s).
Proof.
  intros Hok HI Hno.
  assert (expiries_indexed s) as Hfwd by (intros k v e Hin; apply HI; eauto).
  pose proof (call_indexed c now Hok Hfwd) as Hfwd'.
  intros k e. split; [intros [v Hin]; eauto|].
  revert Hfwd'. rewrite call_eq. intros _.
  pose proof Hok as Hboth. apply andb_true_iff in Hboth as [Hm Hq].
  unfold state_after. destruct c; try apply HI.
  - rewrite set_eq. unfold stored, indexed. simpl.
    assert (forall e', In {| entry_expiry := e'; entry_key := k |} (expiry_queue_ s) ->
              k <> key /\ exists v, In (k, {| value := v; expiry := Some e' |}) (records_ s))
      as Hold.
    { intros e' Hin. apply HI in Hin as [v Hin]. split; eauto.
      intros ->. apply Hno. simpl. eauto. }
    destruct (ttl =? 0)%N.
    + intros Hin. apply Hold in Hin as [Hne [v Hin]].
      exists v. apply (In_assign_iff string_cmp_laws _ _ _ _ _ Hm). auto.
    + intros Hin. apply (In_set_insert entry_cmp_laws) in Hin as [[= -> ->]|Hin].
      * exists value0. apply (In_assign_iff string_cmp_laws _ _ _ _ _ Hm). auto.
      * apply Hold in Hin as [Hne [v Hin]].
        exists v. apply (In_assign_iff string_cmp_laws _ _ _ _ _ Hm). auto.
  - rewrite remove_eq.
    destruct (map_find String.compare key (records_ s)) as [r|] eqn:E;
      [|apply HI].
    apply (map_find_In string_cmp_laws _ _ _ Hm) in E.
    unfold stored, indexed. simpl. intros Hin.
    assert (In {| entry_expiry := e; entry_key := k |} (expiry_queue_ s) /\
            (k = key -> expiry r <> Some e)) as [Hq' Hne].
    { destruct (expiry r) as [e0|].
      - apply (In_set_erase entry_cmp_laws) in Hin as [Hin Hne]; auto.
        split; auto. intros -> [= ->]. easy.
      - split; [auto|easy]. }
    apply HI in Hq' as [v Hs]. exists v.
    apply (In_erase_iff string_cmp_laws _ _ _ _ Hm). split; auto.
    intros ->. apply Hne; auto.
    now rewrite <- (@stored_unique _ _ _ _ Hok Hs E).
  - rewrite removeOneExpiredEntry_eq.
    destruct (expiry_queue_ s) as [|[e0 k0] q] eqn:Eq; [apply HI|].
    simpl. destruct (e0 <=? now); [|apply HI].
    assert (indexed s e0 k0) as Hhead by (unfold indexed; rewrite Eq; now left).
    apply HI in Hhead as [v0 Hs0].
    unfold map_subscript.
    rewrite (proj2 (map_find_In string_cmp_laws _ _ _ Hm) Hs0).
    unfold stored, indexed. simpl. intros Hin.
    assert (indexed s e k) as Hidx by (unfold indexed; rewrite Eq; now right).
    apply HI in Hidx as [v Hs]. exists v.
    apply (In_erase_iff string_cmp_laws _ _ _ _ Hm). split; auto.
    intros ->. pose proof (@stored_unique _ _ _ _ Hok Hs Hs0) as [= -> ->].
    apply (ascending_NoDup entry_cmp_laws) in Hq.
    now inversion Hq.
Qed.

(** *** The head of the index has the least instant *)

Lemma head_least (it x : ExpiryEntry) (q : list ExpiryEntry) :
  ascending entry_compare (it :: q) = true -> In x (it :: q) ->
  entry_expiry it <= entry_expiry x.
Proof.
  intros H [->|Hin]; [lia|].
  apply ascending_cons in H as [Hit _].
  apply Hit, less_lt in Hin. unfold entry_compare in Hin.
  destruct (Z.compare_spec (entry_expiry it) (entry_expiry x)); try lia.
  discriminate.
Qed.

Lemma reap_none (now : time_point) (s : KVStorage) :
  result (removeOneExpiredEntry freed_bytes) now s = None <->
  match expiry_queue_ s with
  | [] => True
  | it :: _ => now < entry_expiry it
  end.
Proof.
  unfold result. rewrite removeOneExpiredEntry_eq.
  destruct (expiry_queue_ s) as [|it q]; simpl; [easy|].
  destruct (Z.leb_spec (entry_expiry it) now).
  - destruct (map_subscript _ _ _ _). simpl. split; [easy|lia].
  - easy.
Qed.

(** X17.  In every reachable state, when [removeOneExpiredEntry] returns
    none, no stored record has reached its expiry. *)
Lemma reap_none_sound (now : time_point) (s : KVStorage) :
  reachable ticks_per_second freed_bytes s ->
  result (removeOneExpiredEntry freed_bytes) now s = None -> none_expired now s.
Proof.
  intros Hr Hnone k v e Hin.
  pose proof (reachable_ok Hr) as Hok.
  apply andb_true_iff in Hok as [_ Hq].
  apply (reachable_indexed Hr) in Hin. unfold indexed in Hin.
  apply reap_none in Hnone.
  destruct (expiry_queue_ s) as [|it q]; [easy|].
  pose proof (head_least Hq Hin) as Hle. simpl in Hle. lia.
Qed.

(** X16.  In a well-formed state that satisfies I1 the reclamation is
    exact: it returns none exactly when no stored record has reached its
    expiry; when it returns a pair, the value is that of a stored entry
    whose expiry has been reached and is the least of all stored expiries,
    and the key is that entry's key as read back after the erase: the key
    itself when it is at most 15 bytes long. *)
Lemma reap_exact_under_I1 (now : time_point) (s : KVStorage) :
  storage_ok s = true -> I1 s ->
  (result (removeOneExpiredEntry freed_bytes) now s = None <-> none_expired now s) /\
  (forall k v,
     result (removeOneExpiredEntry freed_bytes) now s = Some (k, v) ->
     exists k0 e,
       k = read_erased freed_bytes k0 /\
       ((String.length k0 <= 15)%nat -> k = k0) /\
       stored s k0 {| value := v; expiry := Some e |} /\ e <= now /\
       forall k' v' e',
         stored s k' {| value := v'; expiry := Some e' |} -> e <= e').
Proof.
  intros Hok HI. apply andb_true_iff in Hok as [Hm Hq]. split.
  - rewrite reap_none. split.
    + intros Hnone k v e Hin.
      assert (indexed s e k) as Hidx by (apply HI; eauto).
      unfold indexed in Hidx.
      destruct (expiry_queue_ s) as [|it q]; [easy|].
      pose proof (head_least Hq Hidx) as Hle. simpl in Hle. lia.
    + intros Hnone. destruct (expiry_queue_ s) as [|[e k] q] eqn:Eq; [easy|].
      simpl. assert (indexed s e k) as Hidx by (unfold indexed; rewrite Eq; now left).
      apply HI in Hidx as [v Hin]. now apply Hnone in Hin.
  - intros k v. unfold result. rewrite removeOneExpiredEntry_eq.
    destruct (expiry_queue_ s) as [|[e k0] q] eqn:Eq; [easy|]. simpl.
    destruct (Z.leb_spec e now) as [Hle|]; [|easy].
    assert (indexed s e k0) as Hidx by (unfold indexed; rewrite Eq; now left).
    apply HI in Hidx as [v0 Hin].
    unfold map_subscript.
    rewrite (proj2 (map_find_In string_cmp_laws _ _ _ Hm) Hin). simpl.
    intros [= <- <-]. exists k0, e.
    split; [reflexivity|].
    split; [intros Hshort; now apply read_erased_short|].
    split; [exact Hin|]. split; [exact Hle|].
    intros k' v' e' Hin'.
    assert (indexed s e' k') as Hidx' by (apply HI; eauto).
    unfold indexed in Hidx'. rewrite Eq in Hidx'.
    apply (head_least Hq Hidx').
Qed.
End EngineFacts.

(** ** Writes keep the containers in order *)

Section WriteInvariants.
Variable ticks_per_second : Z.

Lemma set_ok (key val : string) (ttl : N) (now : time_point) (s : KVStorage) :
  storage_ok s = true ->
  storage_ok (state_after (set ticks_per_second key val ttl) now s) = true.
Proof.
  intros Hok.
  pose proof (@call_ok ticks_per_second (fun k => k) (Set_ key val ttl) now s Hok)
    as H.
  now rewrite call_eq in H.
Qed.

Lemma remove_ok (key : string) (now : time_point) (s : KVStorage) :
  storage_ok s = true -> storage_ok (state_after (remove key) now s) = true.
Proof.
  intros Hok.
  pose proof (@call_ok ticks_per_second (fun k => k) (Remove key) now s Hok) as H.
  now rewrite call_eq in H.
Qed.

Lemma set_keeps_I1 (key val : string) (ttl : N) (now : time_point)
    (s : KVStorage) :
  storage_ok s = true -> I1 s ->
  ~ overwrites_expiring (Set_ key val ttl) s ->
  I1 (state_after (set ticks_per_second key val ttl) now s).
Proof.
  intros Hok HI Hno.
  pose proof (@call_keeps_I1 ticks_per_second (fun k => k) (Set_ key val ttl)
                now s Hok HI Hno) as H.
  now rewrite call_eq in H.
Qed.
End WriteInvariants.

(** ** The index keeps the pair of an overwritten record *)

Section StalePairs.
Variable ticks_per_second : Z.

(** X18.  [set] never takes a pair out of the index: a pair that is in
    it before the call, for any key, is in it after. *)
Lemma set_keeps_pairs (key val : string) (ttl : N) (now : time_point)
    (s : KVStorage) (e : time_point) (k : string) :
  indexed s e k ->
  indexed (state_after (set ticks_per_second key val ttl) now s) e k.
Proof.
  unfold indexed, state_after. rewrite set_eq. simpl.
  destruct (ttl =? 0)%N; auto.
  intros Hin. apply (In_set_insert entry_cmp_laws). now right.
Qed.
End StalePairs.

Lemma overwritten_store_eq :
  overwritten_store =
  {| records_ := [("k", {| value := "w"; expiry := None |})];
     expiry_queue_ := [{| entry_expiry := at_second 5; entry_key := "k" |}] |}.
Proof. reflexivity. Qed.

Lemma extended_store_eq :
  extended_store =
  {| records_ := [("k", {| value := "v"; expiry := Some (at_second 10) |})];
     expiry_queue_ := [{| entry_expiry := at_second 5; entry_key := "k" |};
                       {| entry_expiry := at_second 10; entry_key := "k" |}] |}.
Proof. reflexivity. Qed.

(** C1.  The claim fails on the code: [set] on a key stored with an expiry
    leaves the old pair in the index.  After [set("k","v",5)] at the
    epoch, the record of "k" expires at second 5 and the index holds
    (5 s, "k"); a following [set("k","w",0)] or [set("k","v",10)] leaves
    that pair in the index. *)
Theorem set_leaves_old_pair (freed_bytes : string -> string) :
  let s :=
    run system_clock_ticks freed_bytes [(0, Set_ "k" "v" 5)] empty_storage in
  stored s "k" {| value := "v"; expiry := Some (at_second 5) |} /\
  indexed s (at_second 5) "k" /\
  indexed (state_after (set system_clock_ticks "k" "w" 0) 0 s) (at_second 5) "k" /\
  indexed (state_after (set system_clock_ticks "k" "v" 10) 0 s) (at_second 5) "k".
Proof. cbv. intuition. Qed.

(** C2.  The claim fails on the code: the state after [set("k","v",5)] and
    [set("k","w",0)] is reachable, and its index holds the pair (5 s, "k")
    while the record of "k" has no expiry, so I1 does not hold in it. *)
Theorem overwrite_breaks_I1 (freed_bytes : string -> string) :
  reachable system_clock_ticks freed_bytes overwritten_store /\
  ~ I1 overwritten_store.
Proof.
  split.
  - exact (@reachable_run system_clock_ticks freed_bytes
             [(0, Set_ "k" "v" 5); (0, Set_ "k" "w" 0)] empty_storage
             (reachable_empty _ _)).
  - intros HI. destruct (HI "k" (at_second 5)) as [_ Hback].
    destruct Hback as [v Hin]; [now left|].
    destruct Hin as [Hin|[]]. discriminate Hin.
Qed.

(** C3.  The claim fails on the code: in the reachable state after
    [set("k","v",5)] and [set("k","w",0)] no stored record has an expiry,
    yet at second 6 [removeOneExpiredEntry] returns ("k","w") and takes
    the record of "k" out of the store. *)
Theorem reap_takes_unexpired (freed_bytes : string -> string) :
  let s := overwritten_store in
  reachable system_clock_ticks freed_bytes s /\
  none_expired (at_second 6) s /\
  stored s "k" {| value := "w"; expiry := None |} /\
  result (removeOneExpiredEntry freed_bytes) (at_second 6) s = Some ("k", "w") /\
  records_ (state_after (removeOneExpiredEntry freed_bytes) (at_second 6) s) = [].
Proof.
  repeat split.
  - exact (@reachable_run system_clock_ticks freed_bytes
             [(0, Set_ "k" "v" 5); (0, Set_ "k" "w" 0)] empty_storage
             (reachable_empty _ _)).
  - intros k v e [Hin|[]]. discriminate Hin.
  - now left.
Qed.

(** C4.  The first half holds and the second fails on the code: after
    [set("k","v",5)] and [set("k","v",10)], [remove("k")] returns true and
    [get("k")] then returns none, but with no further [set] the call of
    [removeOneExpiredEntry] at second 6 returns the key "k" (with an empty
    value). *)
Theorem reap_returns_removed_key (freed_bytes : string -> string) :
  let s := extended_store in
  let s1 := state_after (remove "k") 0 s in
  reachable system_clock_ticks freed_bytes s /\
  result (remove "k") 0 s = true /\
  result (get "k") 0 s1 = None /\
  s1 = run system_clock_ticks freed_bytes [(0, Remove "k")] s /\
  result (removeOneExpiredEntry freed_bytes) (at_second 6) s1 = Some ("k", "").
Proof.
  repeat split.
  exact (@reachable_run system_clock_ticks freed_bytes
           [(0, Set_ "k" "v" 5); (0, Set_ "k" "v" 10)] empty_storage
           (reachable_empty _ _)).
Qed.

(** C9.  The claim fails on the code: [removeOneExpiredEntry] builds its
    reply from [it->key] after [erase(it)].  In the reachable state after
    [set] of a 16-byte key with a ttl of one second, the call at second 2
    takes the entry out whatever the freed memory holds, but the key of
    the reply is what is read where the key's buffer was: two runs from
    this state, with the same clock instant, reply with different keys
    when the freed memory differs. *)
Theorem reap_reply_reads_freed_memory :
  let s := long_key_store in
  (forall freed_bytes,
     reachable system_clock_ticks freed_bytes s /\
     state_after (removeOneExpiredEntry freed_bytes) (at_second 2) s =
       empty_storage /\
     result (removeOneExpiredEntry freed_bytes) (at_second 2) s =
       Some (freed_bytes long_key, "v")) /\
  result (removeOneExpiredEntry freed_intact) (at_second 2) s <>
  result (removeOneExpiredEntry freed_cleared) (at_second 2) s.
Proof.
  split.
  - intros freed_bytes. repeat split.
    exact (@reachable_run system_clock_ticks freed_bytes
             [(0, Set_ long_key "v" 1)] empty_storage (reachable_empty _ _)).
  - discriminate.
Qed.

(** ** The theorems at the sample store *)


Lemma getManySorted_spec_witness :
  storage_ok sample_store = true /\
  result (getManySorted "a" 3) (at_second 6) sample_store =
    [("b", "val2"); ("c", "val3")].
Proof.
  assert (storage_ok sample_store = true) as Hok by reflexivity.
  split; [exact Hok|].
  destruct (getManySorted_spec sample_store "a" 3 (at_second 6) Hok)
    as (Hr & _).
  rewrite Hr. reflexivity.
Defined.

Lemma construct_spec_witness :
  (forall key v ttl,
     In (key, v, ttl) [("k1", "v1", 0%N); ("k2", "v2", 10%N); ("k1", "v3", 5%N)] ->
     ttl <> 0%N -> representable (0 + seconds system_clock_ticks ttl)) /\
  map_find String.compare "k1"
    (records_
       (construct system_clock_ticks
          [("k1", "v1", 0%N); ("k2", "v2", 10%N); ("k1", "v3", 5%N)] 0)) =
  Some {| value := "v3"; expiry := Some (at_second 5) |}.
Proof.
  assert (forall key v ttl,
            In (key, v, ttl)
              [("k1", "v1", 0%N); ("k2", "v2", 10%N); ("k1", "v3", 5%N)] ->
            ttl <> 0%N -> representable (0 + seconds system_clock_ticks ttl))
    as Hrep.
  { intros key v ttl [H|[H|[H|[]]]] _; injection H as _ _ <-;
      split; try discriminate; reflexivity. }
  split; [exact Hrep|].
  destruct (construct_spec system_clock_ticks
              [("k1", "v1", 0%N); ("k2", "v2", 10%N); ("k1", "v3", 5%N)] 0)
    as [_ Hlast].
  rewrite (Hlast Hrep "k1"). reflexivity.
Defined.

Lemma remove_twice_witness :
  storage_ok sample_store = true /\
  result (remove "a") 0 sample_store = true /\
  remove "a" 1 (state_after (remove "a") 0 sample_store) =
    (false, state_after (remove "a") 0 sample_store).
Proof.
  assert (storage_ok sample_store = true) as Hok by reflexivity.
  split; [exact Hok|]. split; [reflexivity|].
  apply (remove_twice sample_store "a" 0 1 Hok).
Defined.

(** * Further properties of the methods *)

(** ** More on lists and the ordered containers *)

Lemma firstn_plus (A : Type) (a b : nat) (l : list A) :
  firstn (a + b) l = firstn a l ++ firstn b (skipn a l).
Proof.
  revert l. induction a as [|a IH]; intros [|x l]; simpl; auto.
  - now rewrite firstn_nil.
  - now rewrite IH.
Qed.

Section ContainerAlgebra.
Variable K : Type.
Variable cmp : K -> K -> comparison.
Hypothesis laws : CmpLaws cmp.

Lemma cmp_neq (a b : K) : a <> b -> cmp a b <> Eq.
Proof. intros Hne E. now apply (cmp_eq laws) in E. Qed.

Lemma ascending_app (l1 l2 : list K) (x : K) :
  ascending cmp (l1 ++ x :: l2) = true ->
  (forall y, In y l1 -> less cmp y x = true) /\
  (forall y, In y l2 -> less cmp x y = true).
Proof.
  induction l1 as [|a l1 IH]; simpl app.
  - intros H. apply ascending_cons in H as [Hx _]. split; [easy|auto].
  - intros H. apply ascending_cons in H as [Ha Hrest].
    destruct (IH Hrest) as [H1 H2]. split; auto.
    intros y [<-|Hy]; auto. apply Ha. apply in_or_app. right. now left.
Qed.

Lemma set_erase_insert (x : K) (s : list K) :
  ~ In x s -> set_erase cmp x (set_insert cmp x s) = s.
Proof.
  induction s as [|y s IH]; simpl.
  - now rewrite (cmp_refl laws).
  - intros Hn. destruct (cmp x y) eqn:E; simpl.
    + apply (cmp_eq laws) in E. subst. tauto.
    + now rewrite (cmp_refl laws).
    + rewrite E, IH; tauto.
Qed.

Lemma set_insert_comm (x y : K) (s : list K) :
  set_insert cmp x (set_insert cmp y s) = set_insert cmp y (set_insert cmp x s).
Proof.
  destruct (cmp x y) eqn:Exy.
  { apply (cmp_eq laws) in Exy. now subst. }
  all: pose proof (cmp_opp laws x y) as Eyx; rewrite Exy in Eyx; simpl in Eyx.
  all: induction s as [|z s IH]; simpl; [now rewrite Exy, Eyx|].
  all: destruct (cmp x z) eqn:Exz, (cmp y z) eqn:Eyz; simpl;
    rewrite ?Exy, ?Eyx, ?Exz, ?Eyz; try reflexivity; try (now rewrite IH).
  all: try (apply (cmp_eq laws) in Exz; subst z).
  all: try (apply (cmp_eq laws) in Eyz; subst z).
  all: try congruence.
  all: try (pose proof (cmp_gt_lt laws _ _ Exz) as Hzx).
  all: try (pose proof (cmp_gt_lt laws _ _ Eyz) as Hzy).
  all: try (pose proof (cmp_trans laws _ _ _ Exy Eyz); congruence).
  all: try (pose proof (cmp_trans laws _ _ _ Eyx Exz); congruence).
  all: try (pose proof (cmp_trans laws _ _ _ Exz Hzy); congruence).
  all: try (pose proof (cmp_trans laws _ _ _ Eyz Hzx); congruence).
Qed.

Section MapAlgebra.
Variable V : Type.
Implicit Types (k : K) (v : V) (m : list (K * V)).

Lemma map_assign_assign k v v' m :
  map_assign cmp k v' (map_assign cmp k v m) = map_assign cmp k v' m.
Proof.
  induction m as [|[k0 v0] m IH]; simpl.
  - now rewrite (cmp_refl laws).
  - destruct (cmp k k0) eqn:E; simpl.
    + now rewrite (cmp_refl laws).
    + now rewrite (cmp_refl laws).
    + now rewrite E, IH.
Qed.

Lemma map_erase_assign k v m :
  map_find cmp k m = None -> map_erase cmp k (map_assign cmp k v m) = m.
Proof.
  induction m as [|[k0 v0] m IH]; simpl.
  - now rewrite (cmp_refl laws).
  - destruct (cmp k k0) eqn:E; simpl.
    + easy.
    + now rewrite (cmp_refl laws).
    + intros Hn. now rewrite E, IH.
Qed.

Lemma map_assign_comm k1 k2 v1 v2 m :
  k1 <> k2 ->
  map_assign cmp k1 v1 (map_assign cmp k2 v2 m) =
  map_assign cmp k2 v2 (map_assign cmp k1 v1 m).
Proof.
  intros Hne. destruct (cmp k1 k2) eqn:E12.
  { now apply (cmp_eq laws) in E12. }
  all: pose proof (cmp_opp laws k1 k2) as E21; rewrite E12 in E21; simpl in E21.
  all: induction m as [|[z vz] m IH]; simpl; [now rewrite E12, E21|].
  all: destruct (cmp k1 z) eqn:E1, (cmp k2 z) eqn:E2; simpl;
    rewrite ?E12, ?E21, ?E1, ?E2; try reflexivity; try (now rewrite IH).
  all: try (apply (cmp_eq laws) in E1; subst z).
  all: try (apply (cmp_eq laws) in E2; subst z).
  all: try congruence.
  all: try (pose proof (cmp_gt_lt laws _ _ E1) as Hz1).
  all: try (pose proof (cmp_gt_lt laws _ _ E2) as Hz2).
  all: try (pose proof (cmp_trans laws _ _ _ E12 E2); congruence).
  all: try (pose proof (cmp_trans laws _ _ _ E21 E1); congruence).
  all: try (pose proof (cmp_trans laws _ _ _ E1 Hz2); congruence).
  all: try (pose proof (cmp_trans laws _ _ _ E2 Hz1); congruence).
Qed.
End MapAlgebra.
End ContainerAlgebra.

(** ** Writes seen through point lookups *)

Section WriteFacts.
Variable ticks_per_second : Z.

(** X1.  After [set] with ttl 0 the key reads back its value at every
    later instant, whatever the store held before. *)
Theorem set_then_get_permanent (key val : string) (now later : time_point)
    (s : KVStorage) :
  result (get key) later (state_after (set ticks_per_second key val 0) now s) =
  Some val.
Proof.
  unfold result, state_after. rewrite set_eq, get_eq. simpl.
  now rewrite (map_find_assign_same string_cmp_laws).
Qed.

(** X2.  [set] on one key does not change what [get] returns for any
    other key. *)
Theorem set_then_get_other (key val : string) (ttl : N) (k' : string)
    (now later : time_point) (s : KVStorage) :
  k' <> key ->
  result (get k') later (state_after (set ticks_per_second key val ttl) now s) =
  result (get k') later s.
Proof.
  intros Hne. unfold result, state_after. rewrite set_eq, !get_eq. simpl.
  now rewrite (map_find_assign_other string_cmp_laws).
Qed.

(** X3.  In a well-formed store [remove] returns true exactly when the key
    has a record, expired or not; afterwards the key has no record, and a
    false result means the state was not touched. *)
Theorem remove_spec (k : string) (now : time_point) (s : KVStorage) :
  storage_ok s = true ->
  (result (remove k) now s = true <-> exists r, stored s k r) /\
  absent (state_after (remove k) now s) k /\
  (result (remove k) now s = false -> state_after (remove k) now s = s).
Proof.
  intros Hok. apply andb_true_iff in Hok as [Hm _].
  unfold result, state_after, absent, stored. rewrite remove_eq.
  destruct (map_find String.compare k (records_ s)) as [r|] eqn:E; simpl.
  - apply (map_find_In string_cmp_laws _ _ _ Hm) in E. repeat split; eauto.
    + intros r' Hin. apply (In_erase_iff string_cmp_laws _ _ _ _ Hm) in Hin.
      now destruct Hin.
    + discriminate.
  - pose proof (proj1 (map_find_None string_cmp_laws _ _ Hm) E) as Hnone.
    repeat split; auto.
    + discriminate.
    + intros [r Hin]. now apply Hnone in Hin.
Qed.

(** X4.  In a well-formed store [remove] of one key does not change what
    [get] returns for any other key. *)
Theorem remove_then_get_other (k k' : string) (now later : time_point)
    (s : KVStorage) :
  storage_ok s = true -> k' <> k ->
  result (get k') later (state_after (remove k) now s) = result (get k') later s.
Proof.
  intros Hok Hne. apply andb_true_iff in Hok as [Hm _].
  unfold result, state_after. rewrite remove_eq, !get_eq.
  destruct (map_find String.compare k (records_ s)); simpl; auto.
  now rewrite (map_find_erase_other string_cmp_laws _ Hm Hne).
Qed.

(** X5.  On a well-formed store in which the key has neither a record nor
    a pair in the index, [set] followed by [remove] of that key returns
    true and gives back the state before the [set]. *)
Theorem set_then_remove (k val : string) (ttl : N) (now now' : time_point)
    (s : KVStorage) :
  storage_ok s = true -> absent s k -> (forall e, ~ indexed s e k) ->
  remove k now' (state_after (set ticks_per_second k val ttl) now s) = (true, s).
Proof.
  intros Hok Habs Hidx. apply andb_true_iff in Hok as [Hm _].
  apply (map_find_None string_cmp_laws _ _ Hm) in Habs.
  unfold state_after. rewrite set_eq, remove_eq. simpl.
  rewrite (map_find_assign_same string_cmp_laws). simpl.
  rewrite (map_erase_assign string_cmp_laws _ _ _ Habs).
  destruct (ttl =? 0)%N; simpl.
  - now destruct s.
  - rewrite (set_erase_insert entry_cmp_laws); [now destruct s|apply Hidx].
Qed.

(** X6.  The last write wins: the records after two [set]s of one key are
    the records after the second alone. *)
Theorem set_twice_records (k v1 v2 : string) (t1 t2 : N)
    (n1 n2 : time_point) (s : KVStorage) :
  records_ (state_after (set ticks_per_second k v2 t2) n2
              (state_after (set ticks_per_second k v1 t1) n1 s)) =
  records_ (state_after (set ticks_per_second k v2 t2) n2 s).
Proof.
  unfold state_after. rewrite !set_eq. simpl.
  apply (map_assign_assign string_cmp_laws).
Qed.

(** X7.  Two [set]s on different keys give the same state in either
    order, each with its own clock reading. *)
Theorem set_commute (k1 k2 v1 v2 : string) (t1 t2 : N)
    (n1 n2 : time_point) (s : KVStorage) :
  k1 <> k2 ->
  state_after (set ticks_per_second k2 v2 t2) n2
    (state_after (set ticks_per_second k1 v1 t1) n1 s) =
  state_after (set ticks_per_second k1 v1 t1) n1
    (state_after (set ticks_per_second k2 v2 t2) n2 s).
Proof.
  intros Hne. unfold state_after. rewrite !set_eq. simpl. f_equal.
  - apply (map_assign_comm string_cmp_laws). congruence.
  - destruct (t1 =? 0)%N, (t2 =? 0)%N; auto.
    apply (set_insert_comm entry_cmp_laws).
Qed.
End WriteFacts.

(** ** Invariants of reachable and constructed engines *)

Section InvariantFacts.
Variable ticks_per_second : Z.
Variable freed_bytes : string -> string.

(** X8.  Between calls, an engine that started empty has strictly
    ascending keys in both containers, and every record with an expiry
    has its (expiry, key) pair in the index. *)
Theorem reachable_invariant (s : KVStorage) :
  reachable ticks_per_second freed_bytes s ->
  storage_ok s = true /\ expiries_indexed s.
Proof.
  intros Hr. split.
  - now apply (@reachable_ok ticks_per_second freed_bytes).
  - now apply (@reachable_indexed ticks_per_second freed_bytes).
Qed.

Lemma sets_reachable (now : time_point) (entries : list (string * string * N))
    (s : KVStorage) :
  reachable ticks_per_second freed_bytes s ->
  reachable ticks_per_second freed_bytes (fold_left (set_triple ticks_per_second now) entries s).
Proof.
  revert s. induction entries as [|[[k v] ttl] rest IH]; intros s Hs; [easy|].
  simpl. apply IH.
  pose proof (reachable_call now (Set_ k v ttl) Hs) as Hstep.
  now rewrite call_eq in Hstep.
Qed.

(** X9.  The engine the constructor builds is a state reachable by calls
    from the empty engine, so it has ascending keys and every record with
    an expiry is indexed, for any list of triples, duplicates included. *)
Theorem construct_invariant (entries : list (string * string * N))
    (now : time_point) :
  let s := construct ticks_per_second entries now in
  reachable ticks_per_second freed_bytes s /\ storage_ok s = true /\ expiries_indexed s.
Proof.
  assert (reachable ticks_per_second freed_bytes (construct ticks_per_second entries now))
    as Hr.
  { unfold construct, state_after. rewrite set_each_eq. simpl.
    apply sets_reachable. constructor. }
  simpl. repeat split; auto.
  - now apply (@reachable_ok ticks_per_second freed_bytes).
  - now apply (@reachable_indexed ticks_per_second freed_bytes).
Qed.
End InvariantFacts.

(** ** The effect of one reclamation *)

(** X10.  In a well-formed store a call of [removeOneExpiredEntry] that
    returns none leaves the state as it was; one that returns a pair drops
    exactly the first pair of the index, whose instant has been reached,
    leaves no record under that pair's key, and does not change what
    [get] returns for any other key.  The key of the reply is the pair's
    key as read back after the erase: the key itself when it is at most
    15 bytes long, what the freed memory holds otherwise. *)
Theorem reap_effect (freed_bytes : string -> string) (now : time_point)
    (s : KVStorage) :
  storage_ok s = true ->
  let s' := state_after (removeOneExpiredEntry freed_bytes) now s in
  match result (removeOneExpiredEntry freed_bytes) now s with
  | None => s' = s
  | Some (k, v) =>
      exists e k0,
        e <= now /\
        expiry_queue_ s =
          {| entry_expiry := e; entry_key := k0 |} :: expiry_queue_ s' /\
        k = read_erased freed_bytes k0 /\
        ((String.length k0 <= 15)%nat -> k = k0) /\
        absent s' k0 /\
        (forall k' later, k' <> k0 ->
           result (get k') later s' = result (get k') later s)
  end.
Proof.
  intros Hok. apply andb_true_iff in Hok as [Hm _].
  unfold result, state_after. simpl. rewrite removeOneExpiredEntry_eq.
  destruct (expiry_queue_ s) as [|[e k] q]; [easy|]. simpl.
  destruct (Z.leb_spec e now) as [Hle|]; [|easy].
  assert (forall r,
            exists m',
              map_erase String.compare k
                (snd (map_subscript String.compare r k (records_ s))) = m' /\
              m' = map_erase String.compare k (records_ s)) as Hrecs.
  { intros r. eexists. split; [reflexivity|]. unfold map_subscript.
    destruct (map_find String.compare k (records_ s)) eqn:E; simpl; auto.
    rewrite (map_erase_assign string_cmp_laws _ _ _ E).
    clear - E. induction (records_ s) as [|[k0 v0] m IH]; simpl in *; auto.
    destruct (String.compare k k0); try easy. now rewrite <- IH. }
  destruct (Hrecs {| value := ""; expiry := None |}) as [m' [Hm' Heq]].
  destruct (map_subscript String.compare {| value := ""; expiry := None |} k
              (records_ s)) as [r recs'].
  simpl in *. exists e, k.
  split; [exact Hle|]. split; [reflexivity|]. split; [reflexivity|]. split.
  { intros Hshort. unfold read_erased.
    now apply Nat.leb_le in Hshort as ->. }
  split.
  - intros r' Hin. unfold stored in Hin. simpl in Hin.
    rewrite Hm', Heq in Hin.
    apply (In_erase_iff string_cmp_laws _ _ _ _ Hm) in Hin. now destruct Hin.
  - intros k' later Hne. rewrite !get_eq. simpl. rewrite Hm', Heq.
    now rewrite (map_find_erase_other string_cmp_laws _ Hm Hne).
Qed.

(** ** Range queries against point lookups and each other *)

(** X11.  In a well-formed store every pair a range query returns is what
    [get] returns for that key at the same instant; and a key above the
    bound for which [get] returns a value is in the result when [count]
    is at least the number of records. *)
Theorem range_agrees_with_get (bound : string) (count : N) (now : time_point)
    (s : KVStorage) :
  storage_ok s = true ->
  (forall k v,
     In (k, v) (result (getManySorted bound count) now s) ->
     result (get k) now s = Some v) /\
  (forall k v,
     String.compare bound k = Lt -> result (get k) now s = Some v ->
     (List.length (records_ s) <= N.to_nat count)%nat ->
     In (k, v) (result (getManySorted bound count) now s)).
Proof.
  intros Hok. unfold result. rewrite (getManySorted_eq _ _ _ _ Hok).
  apply andb_true_iff in Hok as [Hm _]. simpl.
  unfold range_spec, live_above. split.
  - intros k v Hin. apply In_firstn in Hin.
    apply in_map_iff in Hin as [[k' r] [[= <- <-] Hin]].
    apply filter_In in Hin as [Hin Hp]. apply andb_true_iff in Hp as [_ Hl].
    rewrite get_eq. simpl in *.
    apply (map_find_In string_cmp_laws _ _ _ Hm) in Hin. now rewrite Hin, Hl.
  - intros k v Hlt Hget Hlen. rewrite get_eq in Hget. simpl in Hget.
    destruct (map_find String.compare k (records_ s)) as [r|] eqn:E; [|easy].
    destruct (live now r) eqn:Hl; [|easy]. injection Hget as <-.
    apply (map_find_In string_cmp_laws _ _ _ Hm) in E.
    rewrite firstn_all2.
    + apply in_map_iff. exists (k, r). split; auto.
      apply filter_In. split; auto. simpl.
      apply andb_true_iff. split; auto. now apply less_lt.
    + rewrite length_map.
      etransitivity; [apply filter_length_le|exact Hlen].
Qed.

(** X12.  A range query with a smaller count returns the front of the
    result of the query with a larger count, from the same bound. *)
Theorem range_prefix (bound : string) (count count' : N) (now : time_point)
    (s : KVStorage) :
  (count <= count')%N ->
  result (getManySorted bound count) now s =
  firstn (N.to_nat count) (result (getManySorted bound count') now s).
Proof.
  intros Hle. unfold result, getManySorted, bind, read_records.
  rewrite !scan_eq. simpl. rewrite !Nat.sub_0_r, firstn_firstn.
  now replace (Nat.min (N.to_nat count) (N.to_nat count'))
    with (N.to_nat count) by lia.
Qed.

Lemma filter_none (A : Type) (p : A -> bool) (l : list A) :
  (forall x, In x l -> p x = false) -> filter p l = [].
Proof.
  induction l as [|a l IH]; simpl; [easy|].
  intros H. rewrite (H a) by auto. auto.
Qed.

(** The records above the key of the [n]-th record of an ascending list
    are the records after it. *)
Lemma above_nth_is_rest (F front : list (string * Record_)) (n : nat)
    (x : string * Record_) :
  map_ok String.compare F = true ->
  firstn n F = front ++ [x] ->
  filter (fun e => less String.compare (fst x) (fst e)) F = skipn n F.
Proof.
  intros Hok Hfirst.
  pose proof (firstn_skipn n F) as Hsplit. rewrite Hfirst in Hsplit.
  rewrite <- app_assoc in Hsplit. simpl in Hsplit.
  unfold map_ok in Hok. rewrite <- Hsplit, map_app in Hok. simpl in Hok.
  apply ascending_app in Hok as [Hbefore Hafter].
  rewrite <- Hsplit at 1. rewrite filter_app. simpl.
  rewrite (less_irrefl string_cmp_laws).
  rewrite filter_none, filter_all; auto.
  - intros e He. apply Hafter. now apply in_map.
  - intros e He. apply (less_asym string_cmp_laws).
    apply Hbefore. now apply in_map.
Qed.

(** X13.  Paging with the exclusive bound: in a well-formed store, when a
    query for [n] entries ends with the entry of key [k], the query for
    [n + m] entries from the same bound is that page followed by the query
    for [m] entries from bound [k]. *)
Theorem range_pagination (bound : string) (n m : N) (now : time_point)
    (s : KVStorage) (front : list (string * string)) (k v : string) :
  storage_ok s = true ->
  result (getManySorted bound n) now s = front ++ [(k, v)] ->
  result (getManySorted bound (n + m)) now s =
  (front ++ [(k, v)]) ++ result (getManySorted k m) now s.
Proof.
  intros Hok. unfold result. rewrite !(getManySorted_eq _ _ _ _ Hok).
  apply andb_true_iff in Hok as [Hm _]. simpl.
  unfold range_spec, live_above.
  set (F := filter (fun e => less String.compare bound (fst e) && live now (snd e))
              (records_ s)).
  intros Hpage. rewrite N2Nat.inj_add, firstn_plus, Hpage. f_equal.
  rewrite firstn_map in Hpage.
  apply map_eq_app in Hpage as (l1 & l2 & Hfirst & _ & Hlast).
  destruct l2 as [|x [|? ?]]; try discriminate.
  injection Hlast as Hk _.
  assert (map_ok String.compare F = true) as HF by now apply map_ok_filter.
  assert (In x F) as Hx.
  { apply In_firstn with (N.to_nat n). rewrite Hfirst.
    apply in_or_app. right. now left. }
  apply filter_In in Hx as [_ Hx]. apply andb_true_iff in Hx as [Hbk _].
  rewrite Hk in Hbk.
  rewrite skipn_map, <- (@above_nth_is_rest _ _ _ _ HF Hfirst), Hk.
  unfold F. rewrite filter_filter. do 2 f_equal.
  apply filter_ext. intros e.
  destruct (less String.compare k (fst e)) eqn:Hke; simpl.
  - rewrite (less_trans string_cmp_laws _ _ _ Hbk Hke). simpl.
    now rewrite andb_true_r.
  - now rewrite andb_false_r.
Qed.

(** ** The order of the expiry index *)

(** X14.  [ExpiryEntry::operator<] is a strict total order: no entry is
    below itself, it is transitive, and two entries neither of which is
    below the other are equal.  An earlier instant comes first whatever
    the keys; among equal instants the keys decide. *)
Theorem entry_order (a b c : ExpiryEntry) :
  less entry_compare a a = false /\
  (less entry_compare a b = true -> less entry_compare b c = true ->
   less entry_compare a c = true) /\
  (less entry_compare a b = false -> less entry_compare b a = false -> a = b) /\
  (entry_expiry a < entry_expiry b -> less entry_compare a b = true) /\
  (entry_expiry a = entry_expiry b ->
   less entry_compare a b = less String.compare (entry_key a) (entry_key b)).
Proof.
  repeat split.
  - apply (less_irrefl entry_cmp_laws).
  - apply (less_trans entry_cmp_laws).
  - unfold less. rewrite (cmp_opp entry_cmp_laws a b).
    destruct (entry_compare a b) eqn:E; try easy.
    intros _ _. now apply (cmp_eq entry_cmp_laws).
  - intros Hlt. unfold less, entry_compare.
    now apply Z.compare_lt_iff in Hlt as ->.
  - intros Heq. unfold less, entry_compare.
    now rewrite Heq, Z.compare_refl.
Qed.

(** ** Runs and removals that keep the index exact *)

Section ExactIndex.
Variable ticks_per_second : Z.
Variable freed_bytes : string -> string.

(** X15.  From a well-formed state that satisfies I1, a run in which no
    [set] lands on a key whose record has an expiry ends in a state that
    satisfies I1. *)
Theorem run_keeps_I1 (calls : list (time_point * Call)) (s : KVStorage) :
  storage_ok s = true -> I1 s ->
  never_overwrites ticks_per_second freed_bytes calls s ->
  I1 (run ticks_per_second freed_bytes calls s).
Proof.
  revert s. induction calls as [|[now c] rest IH]; intros s Hok HI Hno; [easy|].
  destruct Hno as [Hc Hrest]. simpl. apply IH; auto.
  - now apply call_ok.
  - now apply call_keeps_I1.
Qed.

(** X19.  In a well-formed state that satisfies I1, after [remove] of a
    key the index holds no pair for that key, and the reply of a
    reclamation that follows at any instant is read back from the pair of
    another key: it is not the removed key when that other key is at most
    15 bytes long. *)
Theorem remove_clears_index (k : string) (now now' : time_point)
    (s : KVStorage) :
  storage_ok s = true -> I1 s ->
  let s' := state_after (remove k) now s in
  (forall e, ~ indexed s' e k) /\
  (forall k' v,
     result (removeOneExpiredEntry freed_bytes) now' s' = Some (k', v) ->
     exists k0,
       k0 <> k /\ k' = read_erased freed_bytes k0 /\
       ((String.length k0 <= 15)%nat -> k' <> k)).
Proof.
  intros Hok HI s'.
  assert (forall e, ~ indexed s' e k) as Hclear.
  { subst s'. pose proof Hok as Hboth.
    apply andb_true_iff in Hboth as [Hm Hq].
    intros e. unfold state_after, indexed. rewrite remove_eq.
    destruct (map_find String.compare k (records_ s)) as [r|] eqn:E.
    - apply (map_find_In string_cmp_laws _ _ _ Hm) in E. simpl.
      assert (In {| entry_expiry := e; entry_key := k |} (expiry_queue_ s) ->
              expiry r = Some e) as Hexp.
      { intros Hin. apply HI in Hin as [v Hs].
        now rewrite <- (@stored_unique _ _ _ _ Hok Hs E). }
      destruct (expiry r) as [e0|].
      + intros Hin. apply (In_set_erase entry_cmp_laws) in Hin as [Hin Hne]; auto.
        apply Hexp in Hin. congruence.
      + intros Hin. now apply Hexp in Hin.
    - simpl. intros Hin. apply HI in Hin as [v Hs].
      apply (map_find_In string_cmp_laws _ _ _ Hm) in Hs. congruence. }
  split; [exact Hclear|].
  intros k' v. unfold result. rewrite removeOneExpiredEntry_eq.
  destruct (expiry_queue_ s') as [|[e k0] q] eqn:Eq; [easy|]. simpl.
  destruct (e <=? now'); [|easy].
  destruct (map_subscript _ _ _ _). simpl. intros [= <- _].
  assert (k0 <> k) as Hne.
  { intros ->. apply (Hclear e). unfold indexed. rewrite Eq. now left. }
  exists k0. split; [exact Hne|]. split; [reflexivity|].
  intros Hshort. now rewrite (read_erased_short freed_bytes _ Hshort).
Qed.

Lemma sets_fresh_I1 (now : time_point) (entries : list (string * string * N))
    (s : KVStorage) :
  storage_ok s = true -> I1 s ->
  NoDup (map (fun t => fst (fst t)) entries) ->
  (forall t, In t entries -> absent s (fst (fst t))) ->
  I1 (fold_left (set_triple ticks_per_second now) entries s).
Proof.
  revert s. induction entries as [|[[k v] ttl] rest IH]; intros s Hok HI Hnd Hfresh;
    [easy|].
  simpl in Hnd. inversion Hnd as [|? ? Hk Hnd']. subst.
  assert (~ overwrites_expiring (Set_ k v ttl) s) as Hno.
  { intros [v' [e Hs]]. now apply (Hfresh (k, v, ttl) (or_introl eq_refl)) in Hs. }
  pose proof (@set_ok ticks_per_second k v ttl now s Hok) as Hok'.
  pose proof (@set_keeps_I1 ticks_per_second k v ttl now s Hok HI Hno) as HI'.
  cbn [fold_left]. apply IH; auto.
  intros t Hin r Hs.
  unfold set_triple, state_after, stored in Hs. rewrite set_eq in Hs.
  simpl in Hs. apply andb_true_iff in Hok as [Hm _].
  apply (In_assign_iff string_cmp_laws _ _ _ _ _ Hm) in Hs as [[Heq _]|[_ Hs]].
  - apply Hk. rewrite <- Heq. now apply (in_map (fun t => fst (fst t))) in Hin.
  - now apply (Hfresh t (or_intror Hin)) in Hs.
Qed.

(** X20.  The constructor run on triples with pairwise different keys
    builds an engine that satisfies I1. *)
Theorem construct_distinct_I1 (entries : list (string * string * N))
    (now : time_point) :
  NoDup (map (fun t => fst (fst t)) entries) ->
  I1 (construct ticks_per_second entries now).
Proof.
  intros Hnd. unfold construct, state_after. rewrite set_each_eq. simpl.
  apply sets_fresh_I1; auto.
  - intros k e. split; [intros [v []]|intros []].
  - intros t _ r [].
Qed.
End ExactIndex.

(** ** What range queries and lookups do not see *)

Section FilterFacts.
Variables K V : Type.
Variable cmp : K -> K -> comparison.
Hypothesis laws : CmpLaws cmp.
Variable p : K * V -> bool.

Lemma filter_assign_rejected (k : K) (v : V) (m : list (K * V)) :
  (forall v', p (k, v') = false) ->
  filter p (map_assign cmp k v m) = filter p m.
Proof.
  intros Hrej. induction m as [|[k0 v0] m IH]; simpl.
  - now rewrite Hrej.
  - destruct (cmp k k0) eqn:E; simpl.
    + apply (cmp_eq laws) in E. subst k0. now rewrite !Hrej.
    + now rewrite Hrej.
    + now rewrite IH.
Qed.

Lemma filter_erase_rejected (k : K) (r : V) (m : list (K * V)) :
  map_find cmp k m = Some r -> p (k, r) = false ->
  filter p (map_erase cmp k m) = filter p m.
Proof.
  intros Hfind Hrej. induction m as [|[k0 v0] m IH]; simpl in *; [easy|].
  destruct (cmp k k0) eqn:E; simpl.
  - apply (cmp_eq laws) in E. subst k0. injection Hfind as ->. now rewrite Hrej.
  - easy.
  - now rewrite IH.
Qed.
End FilterFacts.

Section Unseen.
Variable ticks_per_second : Z.
Variable freed_bytes : string -> string.

(** X21.  In a well-formed store a [set] or a [remove] of a key that is
    not above the bound does not change the result of a range query from
    that bound. *)
Theorem range_ignores_keys_below (bound key val : string) (ttl count : N)
    (now later : time_point) (s : KVStorage) :
  storage_ok s = true -> less String.compare bound key = false ->
  result (getManySorted bound count) later
    (state_after (set ticks_per_second key val ttl) now s) =
    result (getManySorted bound count) later s /\
  result (getManySorted bound count) later (state_after (remove key) now s) =
    result (getManySorted bound count) later s.
Proof.
  intros Hok Hbelow.
  pose proof (@set_ok ticks_per_second key val ttl now s Hok) as Hset.
  pose proof (@remove_ok ticks_per_second key now s Hok) as Hrem.
  unfold result.
  rewrite (getManySorted_eq _ _ _ _ Hset), (getManySorted_eq _ _ _ _ Hrem),
    (getManySorted_eq _ _ _ _ Hok).
  unfold state_after. rewrite set_eq, remove_eq. simpl.
  unfold range_spec, live_above. simpl. split.
  - rewrite (filter_assign_rejected string_cmp_laws); auto.
    intros v'. simpl. now rewrite Hbelow.
  - destruct (map_find String.compare key (records_ s)) as [r|] eqn:E; auto.
    simpl. rewrite (filter_erase_rejected string_cmp_laws _ _ _ E); auto.
    simpl. now rewrite Hbelow.
Qed.

(** X22.  In a well-formed state that satisfies I1 a reclamation is not
    seen by readers: at any instant from the one of the reclamation on,
    [get] of every key and every range query return what they would have
    returned without it. *)
Theorem reap_unseen (now later : time_point) (s : KVStorage) :
  storage_ok s = true -> I1 s -> now <= later ->
  let s' := state_after (removeOneExpiredEntry freed_bytes) now s in
  (forall k, result (get k) later s' = result (get k) later s) /\
  (forall bound count,
     result (getManySorted bound count) later s' =
     result (getManySorted bound count) later s).
Proof.
  intros Hok HI Hlater s'.
  pose proof (@call_ok ticks_per_second freed_bytes RemoveOneExpiredEntry now s Hok) as Hok'.
  rewrite call_eq in Hok'. fold s' in Hok'.
  assert (s' = s \/
          exists k r e,
            map_find String.compare k (records_ s) = Some r /\
            expiry r = Some e /\ e <= now /\
            records_ s' = map_erase String.compare k (records_ s)) as Hcase.
  { subst s'. unfold state_after. rewrite removeOneExpiredEntry_eq.
    destruct (expiry_queue_ s) as [|[e k] q] eqn:Eq; [now left|]. simpl.
    destruct (Z.leb_spec e now) as [Hle|]; [|now left]. right.
    assert (indexed s e k) as Hidx by (unfold indexed; rewrite Eq; now left).
    apply HI in Hidx as [v Hs]. pose proof Hok as Hboth.
    apply andb_true_iff in Hboth as [Hm _].
    apply (map_find_In string_cmp_laws _ _ _ Hm) in Hs.
    unfold map_subscript. rewrite Hs. simpl.
    exists k, {| value := v; expiry := Some e |}, e. auto. }
  destruct Hcase as [->|(k0 & r & e & Hfind & Hexp & Hle & Hrecs)]; [easy|].
  assert (live later r = false) as Hdead.
  { unfold live. rewrite Hexp. apply Z.ltb_ge. lia. }
  pose proof Hok as Hboth. apply andb_true_iff in Hboth as [Hm _]. split.
  - intros k. unfold result. rewrite !get_eq. simpl. rewrite Hrecs.
    destruct (String.eqb_spec k k0) as [->|Hne].
    + rewrite (map_find_erase_same string_cmp_laws _ _ Hm), Hfind.
      now rewrite Hdead.
    + now rewrite (map_find_erase_other string_cmp_laws _ Hm Hne).
  - intros bound count. unfold result.
    rewrite (getManySorted_eq _ _ _ _ Hok'), (getManySorted_eq _ _ _ _ Hok).
    simpl. unfold range_spec, live_above. rewrite Hrecs.
    rewrite (filter_erase_rejected string_cmp_laws _ _ _ Hfind); auto.
    simpl. rewrite Hdead. apply andb_false_r.
Qed.
End Unseen.

(** ** The further properties at the sample store *)

Lemma sample_store_I1 : I1 sample_store.
Proof.
  intros k e. split.
  - intros [v [H|[H|[H|[]]]]]; try discriminate H; injection H as <- <- <-.
    + now left.
    + right. now left.
  - intros [H|[H|[]]]; injection H as <- <-.
    + exists "val1". now left.
    + exists "val3". right. right. now left.
Qed.

Lemma set_then_get_other_witness :
  "b" <> "a" /\
  result (get "b") (at_second 9)
    (state_after (set system_clock_ticks "a" "new" 3) 0 sample_store) =
  result (get "b") (at_second 9) sample_store.
Proof.
  assert ("b" <> "a") as Hne by discriminate.
  split; [exact Hne|].
  exact (@set_then_get_other system_clock_ticks "a" "new" 3%N "b" 0 (at_second 9)
           sample_store Hne).
Defined.

Lemma remove_spec_witness :
  storage_ok sample_store = true /\
  result (remove "a") (at_second 9) sample_store = true /\
  absent (state_after (remove "a") (at_second 9) sample_store) "a".
Proof.
  assert (storage_ok sample_store = true) as Hok by reflexivity.
  destruct (@remove_spec "a" (at_second 9) sample_store Hok) as (Hiff & Habs & _).
  split; [exact Hok|].
  split; [apply Hiff; eexists; now left|exact Habs].
Defined.

Lemma remove_then_get_other_witness :
  storage_ok sample_store = true /\ "b" <> "a" /\
  result (get "b") 1 (state_after (remove "a") 0 sample_store) =
  result (get "b") 1 sample_store.
Proof.
  assert (storage_ok sample_store = true) as Hok by reflexivity.
  assert ("b" <> "a") as Hne by discriminate.
  split; [exact Hok|]. split; [exact Hne|].
  exact (@remove_then_get_other "a" "b" 0 1 sample_store Hok Hne).
Defined.

Lemma set_then_remove_witness :
  storage_ok sample_store = true /\ absent sample_store "k" /\
  (forall e, ~ indexed sample_store e "k") /\
  remove "k" 1 (state_after (set system_clock_ticks "k" "v" 5) 0 sample_store) =
  (true, sample_store).
Proof.
  assert (storage_ok sample_store = true) as Hok by reflexivity.
  assert (absent sample_store "k") as Habs
    by (intros r [H|[H|[H|[]]]]; discriminate H).
  assert (forall e, ~ indexed sample_store e "k") as Hidx
    by (intros e [H|[H|[]]]; discriminate H).
  split; [exact Hok|]. split; [exact Habs|]. split; [exact Hidx|].
  exact (@set_then_remove system_clock_ticks "k" "v" 5%N 0 1 sample_store Hok Habs Hidx).
Defined.

Lemma set_commute_witness :
  "a" <> "d" /\
  state_after (set system_clock_ticks "d" "val4" 2) 1
    (state_after (set system_clock_ticks "a" "new" 0) 0 sample_store) =
  state_after (set system_clock_ticks "a" "new" 0) 0
    (state_after (set system_clock_ticks "d" "val4" 2) 1 sample_store).
Proof.
  assert ("a" <> "d") as Hne by discriminate.
  split; [exact Hne|].
  exact (@set_commute system_clock_ticks "a" "d" "new" "val4" 0%N 2%N 0 1
           sample_store Hne).
Defined.

Lemma reachable_invariant_witness :
  reachable system_clock_ticks freed_intact sample_store /\
  storage_ok sample_store = true /\ expiries_indexed sample_store.
Proof.
  assert (reachable system_clock_ticks freed_intact sample_store) as Hr
    by (apply reachable_run; constructor).
  split; [exact Hr|].
  exact (@reachable_invariant system_clock_ticks freed_intact sample_store Hr).
Defined.

Lemma reap_effect_witness :
  storage_ok sample_store = true /\
  let s' := state_after (removeOneExpiredEntry freed_cleared) (at_second 6)
              sample_store in
  match result (removeOneExpiredEntry freed_cleared) (at_second 6) sample_store with
  | None => s' = sample_store
  | Some (k, v) =>
      exists e k0,
        e <= at_second 6 /\
        expiry_queue_ sample_store =
          {| entry_expiry := e; entry_key := k0 |} :: expiry_queue_ s' /\
        k = read_erased freed_cleared k0 /\
        ((String.length k0 <= 15)%nat -> k = k0) /\
        absent s' k0 /\
        (forall k' later, k' <> k0 ->
           result (get k') later s' = result (get k') later sample_store)
  end.
Proof.
  assert (storage_ok sample_store = true) as Hok by reflexivity.
  split; [exact Hok|].
  exact (@reap_effect freed_cleared (at_second 6) sample_store Hok).
Defined.

Lemma range_agrees_with_get_witness :
  storage_ok sample_store = true /\
  result (get "c") (at_second 6) sample_store = Some "val3" /\
  In ("c", "val3") (result (getManySorted "a" 3) (at_second 6) sample_store).
Proof.
  assert (storage_ok sample_store = true) as Hok by reflexivity.
  destruct (@range_agrees_with_get "a" 3%N (at_second 6) sample_store Hok)
    as [_ Hback].
  assert (result (get "c") (at_second 6) sample_store = Some "val3") as Hget
    by reflexivity.
  split; [exact Hok|]. split; [exact Hget|].
  apply Hback; [reflexivity|exact Hget|].
  apply Nat.leb_le. reflexivity.
Defined.

Lemma range_prefix_witness :
  (2 <= 3)%N /\
  result (getManySorted "" 2) 0 sample_store =
  firstn 2 (result (getManySorted "" 3) 0 sample_store).
Proof.
  assert (2 <= 3)%N as Hle by discriminate.
  split; [exact Hle|]. exact (@range_prefix "" 2%N 3%N 0 sample_store Hle).
Defined.

Lemma range_pagination_witness :
  storage_ok sample_store = true /\
  result (getManySorted "" 2) 0 sample_store = [("a", "val1")] ++ [("b", "val2")] /\
  result (getManySorted "" (2 + 5)) 0 sample_store =
  ([("a", "val1")] ++ [("b", "val2")]) ++
  result (getManySorted "b" 5) 0 sample_store.
Proof.
  assert (storage_ok sample_store = true) as Hok by reflexivity.
  assert (result (getManySorted "" 2) 0 sample_store =
          [("a", "val1")] ++ [("b", "val2")]) as Hpage by reflexivity.
  split; [exact Hok|]. split; [exact Hpage|].
  exact (@range_pagination "" 2%N 5%N 0 sample_store [("a", "val1")] "b" "val2"
           Hok Hpage).
Defined.

Lemma run_keeps_I1_witness :
  storage_ok sample_store = true /\ I1 sample_store /\
  never_overwrites system_clock_ticks freed_intact
    [(at_second 1, Set_ "b" "new" 7); (at_second 2, Remove "a");
     (at_second 20, RemoveOneExpiredEntry)] sample_store /\
  I1 (run system_clock_ticks freed_intact
        [(at_second 1, Set_ "b" "new" 7); (at_second 2, Remove "a");
         (at_second 20, RemoveOneExpiredEntry)] sample_store).
Proof.
  assert (storage_ok sample_store = true) as Hok by reflexivity.
  assert (never_overwrites system_clock_ticks freed_intact
            [(at_second 1, Set_ "b" "new" 7); (at_second 2, Remove "a");
             (at_second 20, RemoveOneExpiredEntry)] sample_store) as Hno.
  { split; [|split; [|split]]; try easy.
    intros [v [e [H|[H|[H|[]]]]]]; discriminate H. }
  split; [exact Hok|]. split; [exact sample_store_I1|]. split; [exact Hno|].
  exact (@run_keeps_I1 system_clock_ticks freed_intact _ sample_store Hok sample_store_I1 Hno).
Defined.

Lemma reap_exact_under_I1_witness :
  storage_ok sample_store = true /\ I1 sample_store /\
  result (removeOneExpiredEntry freed_cleared) (at_second 6) sample_store =
    Some ("a", "val1") /\
  exists k0 e,
    "a" = read_erased freed_cleared k0 /\
    ((String.length k0 <= 15)%nat -> "a" = k0) /\
    stored sample_store k0 {| value := "val1"; expiry := Some e |} /\
    e <= at_second 6 /\
    forall k' v' e',
      stored sample_store k' {| value := v'; expiry := Some e' |} -> e <= e'.
Proof.
  assert (storage_ok sample_store = true) as Hok by reflexivity.
  assert (result (removeOneExpiredEntry freed_cleared) (at_second 6) sample_store =
          Some ("a", "val1")) as Hres by reflexivity.
  destruct (@reap_exact_under_I1 freed_cleared (at_second 6) sample_store Hok
              sample_store_I1) as [_ Hsome].
  split; [exact Hok|]. split; [exact sample_store_I1|]. split; [exact Hres|].
  exact (Hsome "a" "val1" Hres).
Defined.

Lemma reap_none_sound_witness :
  reachable system_clock_ticks freed_intact sample_store /\
  result (removeOneExpiredEntry freed_intact) (at_second 4) sample_store = None /\
  none_expired (at_second 4) sample_store.
Proof.
  assert (reachable system_clock_ticks freed_intact sample_store) as Hr
    by (apply reachable_run; constructor).
  assert (result (removeOneExpiredEntry freed_intact) (at_second 4) sample_store = None)
    as Hnone by reflexivity.
  split; [exact Hr|]. split; [exact Hnone|].
  exact (@reap_none_sound system_clock_ticks freed_intact (at_second 4) sample_store Hr Hnone).
Defined.

Lemma set_keeps_pairs_witness :
  indexed sample_store (at_second 5) "a" /\
  indexed (state_after (set system_clock_ticks "a" "new" 0) 0 sample_store)
    (at_second 5) "a".
Proof.
  assert (indexed sample_store (at_second 5) "a") as Hin by now left.
  split; [exact Hin|].
  exact (@set_keeps_pairs system_clock_ticks "a" "new" 0%N 0 sample_store
           (at_second 5) "a" Hin).
Defined.

Lemma remove_clears_index_witness :
  storage_ok sample_store = true /\ I1 sample_store /\
  (forall e, ~ indexed (state_after (remove "a") 0 sample_store) e "a") /\
  (forall k' v,
     result (removeOneExpiredEntry freed_cleared) (at_second 10)
       (state_after (remove "a") 0 sample_store) = Some (k', v) ->
     exists k0,
       k0 <> "a" /\ k' = read_erased freed_cleared k0 /\
       ((String.length k0 <= 15)%nat -> k' <> "a")).
Proof.
  assert (storage_ok sample_store = true) as Hok by reflexivity.
  split; [exact Hok|]. split; [exact sample_store_I1|].
  exact (@remove_clears_index freed_cleared "a" 0 (at_second 10) sample_store Hok
           sample_store_I1).
Defined.

Lemma construct_distinct_I1_witness :
  NoDup (map (fun t : string * string * N => fst (fst t))
           [("k1", "v1", 0%N); ("k2", "v2", 10%N)]) /\
  I1 (construct system_clock_ticks [("k1", "v1", 0%N); ("k2", "v2", 10%N)] 0).
Proof.
  assert (NoDup (map (fun t : string * string * N => fst (fst t))
                   [("k1", "v1", 0%N); ("k2", "v2", 10%N)])) as Hnd.
  { repeat constructor; simpl; intuition discriminate. }
  split; [exact Hnd|].
  exact (@construct_distinct_I1 system_clock_ticks _ 0 Hnd).
Defined.

Lemma range_ignores_keys_below_witness :
  storage_ok sample_store = true /\ less String.compare "b" "a" = false /\
  result (getManySorted "b" 3) 1
    (state_after (set system_clock_ticks "a" "new" 0) 0 sample_store) =
    result (getManySorted "b" 3) 1 sample_store /\
  result (getManySorted "b" 3) 1 (state_after (remove "a") 0 sample_store) =
    result (getManySorted "b" 3) 1 sample_store.
Proof.
  assert (storage_ok sample_store = true) as Hok by reflexivity.
  assert (less String.compare "b" "a" = false) as Hbelow by reflexivity.
  split; [exact Hok|]. split; [exact Hbelow|].
  exact (@range_ignores_keys_below system_clock_ticks "b" "a" "new" 0%N 3%N 0 1
           sample_store Hok Hbelow).
Defined.

Lemma reap_unseen_witness :
  storage_ok sample_store = true /\ I1 sample_store /\
  at_second 6 <= at_second 7 /\
  (forall k,
     result (get k) (at_second 7)
       (state_after (removeOneExpiredEntry freed_intact) (at_second 6) sample_store) =
     result (get k) (at_second 7) sample_store) /\
  (forall bound count,
     result (getManySorted bound count) (at_second 7)
       (state_after (removeOneExpiredEntry freed_intact) (at_second 6) sample_store) =
     result (getManySorted bound count) (at_second 7) sample_store).
Proof.
  assert (storage_ok sample_store = true) as Hok by reflexivity.
  assert (at_second 6 <= at_second 7) as Hle by discriminate.
  split; [exact Hok|]. split; [exact sample_store_I1|]. split; [exact Hle|].
  exact (@reap_unseen system_clock_ticks freed_intact (at_second 6) (at_second 7) sample_store
           Hok sample_store_I1 Hle).
Defined.
